(** * The query analyzer of go-mysql-server: a shallow embedding

    The development follows the layout of the Go packages:
    - [sql]: column descriptors, schemas, errors;
    - [expression]: the expression shapes the analyzer inspects;
    - [plan]: plan nodes, their [Resolved] predicate, their [Schema] and the
      bottom-up traversal [TransformUp];
    - [analyzer]: the star-resolution rule, [resolveStar] and [expandStars],
      embedded from the sources;
    - [engine], [rules], [pushdown], [exec], [builder]: the rule engine,
      the other resolution rules, the pushdown rule, rows, and the default
      analyzer.  The sources hold their tests only; each definition that
      is modelled from the specification says so.

    Go values of type [(T, error)] are values of [result T]; a [for] loop
    that appends to a slice is a recursive function over the ranged list
    carrying the slice built so far.  Definitions come first, theorems
    after them. *)

From stdpp Require Import base tactics option list strings gmap pretty.

Set Default Proof Using "Type".
Open Scope string_scope.
Open Scope list_scope.
Open Scope nat_scope.

(** ** Package sql *)

(** The column types used by the analyzer tests. *)
Inductive SqlType := Int32 | Int64 | Float64 | Text | LongText | Boolean.

#[global] Instance SqlType_eq_dec : EqDecision SqlType.
Proof. solve_decision. Defined.

(** [sql.Column]: the fields the analyzer reads. *)
Record Column := mkColumn {
  Name : string;
  Type_ : SqlType;
  Source : string;
  Nullable : bool
}.

#[global] Instance Column_eq_dec : EqDecision Column.
Proof. solve_decision. Defined.

(** [sql.Schema] is a slice of columns. *)
Abbreviation Schema_t := (list Column).

(** The error kinds of the analyzer; each carries the name it is about. *)
Inductive Error :=
| ErrTableNotFound (name : string)
| ErrDatabaseNotFound (name : string)
| ErrColumnNotFound (name : string)
| ErrAmbiguousColumnName (name : string).

#[global] Instance Error_eq_dec : EqDecision Error.
Proof. solve_decision. Defined.

(** A Go result [(v, err)]: [OK v] stands for [(v, nil)] and [Err e] for
    a non-nil error [e], next to which the value is not used. *)
Inductive result (A : Type) :=
| OK (a : A)
| Err (e : Error).
Arguments OK {A} a.
Arguments Err {A} e.

#[global] Instance result_ret : MRet result := @OK.
#[global] Instance result_bind : MBind result := λ A B f r,
  match r with OK a => f a | Err e => Err e end.

(** Values held by literals and rows. *)
Inductive Value :=
| VNull
| VBool (b : bool)
| VInt (z : Z)
| VText (s : string).

#[global] Instance Value_eq_dec : EqDecision Value.
Proof. solve_decision. Defined.

(** ** Package expression *)

(** The expression shapes named by the analyzer and its tests.  A star
    without qualifier has an empty [table], as [expression.NewStar()]
    builds it; an unresolved column without qualifier likewise. *)
Inductive Expression :=
| UnresolvedColumn (table name : string)
| Star (table : string)
| GetField (index : nat) (typ : SqlType) (table name : string) (nullable : bool)
| Alias (name : string) (child : Expression)
| Literal (v : Value) (typ : SqlType)
| Equals (l r : Expression)
| And (l r : Expression).

#[global] Instance Expression_eq_dec : EqDecision Expression.
Proof. solve_decision. Defined.

(** [expression.NewGetFieldWithTable(i, col.Type, col.Source, col.Name,
    col.Nullable)], the call [expandStars] makes for a column. *)
Definition NewGetFieldWithTable (i : nat) (col : Column) : Expression :=
  GetField i (Type_ col) (Source col) (Name col) (Nullable col).

Module expression.

(** Modelled from the spec: [Expression.Resolved] is not in the sources;
    an expression is resolved iff it carries no unbound name reference,
    that is no unresolved column and no star. *)
Fixpoint Resolved (e : Expression) : bool :=
  match e with
  | UnresolvedColumn _ _ => false
  | Star _ => false
  | GetField _ _ _ _ _ => true
  | Alias _ c => Resolved c
  | Literal _ _ => true
  | Equals l r => Resolved l && Resolved r
  | And l r => Resolved l && Resolved r
  end.

(** Modelled from the spec: the type an expression evaluates to; only
    meaningful on resolved expressions. *)
Fixpoint TypeOf (e : Expression) : SqlType :=
  match e with
  | GetField _ t _ _ _ => t
  | Literal _ t => t
  | Alias _ c => TypeOf c
  | _ => Boolean
  end.

Fixpoint IsNullable (e : Expression) : bool :=
  match e with
  | GetField _ _ _ _ n => n
  | Alias _ c => IsNullable c
  | Literal v _ => bool_decide (v = VNull)
  | _ => false
  end.

Definition valueString (v : Value) : string :=
  match v with
  | VNull => "NULL"
  | VBool b => if b then "true" else "false"
  | VInt z => pretty z
  | VText s => s
  end.

(** Modelled from the spec: the rendering of an expression, used in the
    description a [DecoratedNode] carries ("mytable.i = 1"). *)
Fixpoint String (e : Expression) : string :=
  match e with
  | UnresolvedColumn t n => if bool_decide (t = "") then n else t +:+ "." +:+ n
  | Star t => if bool_decide (t = "") then "*" else t +:+ ".*"
  | GetField _ _ t n _ => if bool_decide (t = "") then n else t +:+ "." +:+ n
  | Alias n c => String c +:+ " as " +:+ n
  | Literal v _ => valueString v
  | Equals l r => String l +:+ " = " +:+ String r
  | And l r => "(" +:+ String l +:+ " AND " +:+ String r +:+ ")"
  end.

End expression.

(** ** Package plan *)

(** A table handle as the catalog serves it: name, full schema and rows,
    and, for a table with pushdown capability, the projection and the
    filters pushed into it so far. *)
Record Table := mkTable {
  table_name : string;
  table_schema : Schema_t;
  table_rows : list (list Value);
  table_pushdown : bool;
  table_projection : list string;
  table_filters : list Expression
}.

#[global] Instance Table_eq_dec : EqDecision Table.
Proof. solve_decision. Defined.

(** The plan nodes of the spec's data model. *)
Inductive Node :=
| UnresolvedTable (name db : string)
| ResolvedTable (t : Table)
| Project (projections : list Expression) (child : Node)
| Filter (cond : Expression) (child : Node)
| GroupBy (aggregate grouping : list Expression) (child : Node)
| Limit (n : Z) (child : Node)
| InnerJoin (left right : Node) (cond : Expression)
| CrossJoin (left right : Node)
| NaturalJoin (left right : Node)
| TableAlias (name : string) (child : Node)
| Describe (child : Node)
| DecoratedNode (text : string) (child : Node).

#[global] Instance Node_eq_dec : EqDecision Node.
Proof. solve_decision. Defined.

Definition NewUnresolvedColumn (name : string) : Expression :=
  UnresolvedColumn "" name.
Definition NewUnresolvedQualifiedColumn (table name : string) : Expression :=
  UnresolvedColumn table name.
Definition NewStar : Expression := Star "".
Definition NewQualifiedStar (table : string) : Expression := Star table.

Module plan.

(** Modelled from the spec: the schema a table handle reports.  A table
    narrowed by [WithProjection] reports the projected columns, in the
    order of the projection list. *)
Definition TableSchema (t : Table) : Schema_t :=
  match table_projection t with
  | [] => table_schema t
  | names =>
      omap (λ n, snd <$> list_find (λ c, Name c = n) (table_schema t)) names
  end.

(** Modelled from the spec: the column a projected expression contributes
    to the schema of a [Project] or [GroupBy]. *)
Definition exprColumn (e : Expression) : Column :=
  match e with
  | GetField _ t tbl n nl => mkColumn n t tbl nl
  | Alias n c => mkColumn n (expression.TypeOf c) "" (expression.IsNullable c)
  | _ => mkColumn (expression.String e) (expression.TypeOf e) ""
           (expression.IsNullable e)
  end.

(** Modelled from the spec: [Node.Resolved] is not in the sources.  A node
    is resolved iff it and all its descendants carry no unresolved
    reference: no unresolved table, column or star, and no natural join
    still to be expanded. *)
Fixpoint Resolved (n : Node) : bool :=
  match n with
  | UnresolvedTable _ _ => false
  | ResolvedTable _ => true
  | Project ps c => Resolved c && forallb expression.Resolved ps
  | Filter e c => Resolved c && expression.Resolved e
  | GroupBy agg grp c =>
      Resolved c && forallb expression.Resolved agg
      && forallb expression.Resolved grp
  | Limit _ c => Resolved c
  | InnerJoin l r e => Resolved l && Resolved r && expression.Resolved e
  | CrossJoin l r => Resolved l && Resolved r
  | NaturalJoin _ _ => false
  | TableAlias _ c => Resolved c
  | Describe c => Resolved c
  | DecoratedNode _ c => Resolved c
  end.

(** Modelled from the spec: [Node.Schema] is not in the sources.  The
    schema is derived bottom-up; a join concatenates the schemas of its
    sides, a wrapper forwards the schema of its child, an alias renames
    the source table, and a node that is a placeholder reports the empty
    schema. *)
Fixpoint Schema (n : Node) : Schema_t :=
  match n with
  | UnresolvedTable _ _ => []
  | ResolvedTable t => TableSchema t
  | Project ps _ => exprColumn <$> ps
  | Filter _ c => Schema c
  | GroupBy agg _ _ => exprColumn <$> agg
  | Limit _ c => Schema c
  | InnerJoin l r _ => Schema l ++ Schema r
  | CrossJoin l r => Schema l ++ Schema r
  | NaturalJoin _ _ => []
  | TableAlias a c =>
      (λ col, mkColumn (Name col) (Type_ col) a (Nullable col)) <$> Schema c
  | Describe _ => [mkColumn "name" LongText "" false;
                   mkColumn "type" LongText "" false]
  | DecoratedNode _ c => Schema c
  end.

(** Modelled from the spec: the children a node owns, and the node
    rebuilt over new children ([Node.Children], [Node.WithChildren]); a
    list of the wrong length leaves the node as it is. *)
Definition Children (n : Node) : list Node :=
  match n with
  | UnresolvedTable _ _ | ResolvedTable _ => []
  | Project _ c | Filter _ c | GroupBy _ _ c | Limit _ c
  | TableAlias _ c | Describe c | DecoratedNode _ c => [c]
  | InnerJoin l r _ | CrossJoin l r | NaturalJoin l r => [l; r]
  end.

Definition WithChildren (n : Node) (cs : list Node) : Node :=
  match n, cs with
  | Project ps _, [c] => Project ps c
  | Filter e _, [c] => Filter e c
  | GroupBy agg grp _, [c] => GroupBy agg grp c
  | Limit k _, [c] => Limit k c
  | TableAlias a _, [c] => TableAlias a c
  | Describe _, [c] => Describe c
  | DecoratedNode d _, [c] => DecoratedNode d c
  | InnerJoin _ _ e, [l; r] => InnerJoin l r e
  | CrossJoin _ _, [l; r] => CrossJoin l r
  | NaturalJoin _ _, [l; r] => NaturalJoin l r
  | _, _ => n
  end.

(** The expressions a node owns ([sql.Expressioner]). *)
Definition Expressions (n : Node) : list Expression :=
  match n with
  | Project ps _ => ps
  | Filter e _ => [e]
  | GroupBy agg grp _ => agg ++ grp
  | InnerJoin _ _ e => [e]
  | _ => []
  end.

(** Modelled from the spec: [plan.TransformUp] is not in the sources.  It
    is the bottom-up traversal: the children of a node are transformed
    first, the node is rebuilt over the transformed children, and the
    function is applied to the rebuilt node; the first error aborts the
    walk. *)
Fixpoint TransformUp (f : Node → result Node) (n : Node) : result Node :=
  match n with
  | UnresolvedTable _ _ | ResolvedTable _ => f n
  | Project ps c => c' ← TransformUp f c; f (Project ps c')
  | Filter e c => c' ← TransformUp f c; f (Filter e c')
  | GroupBy agg grp c => c' ← TransformUp f c; f (GroupBy agg grp c')
  | Limit k c => c' ← TransformUp f c; f (Limit k c')
  | InnerJoin l r e =>
      l' ← TransformUp f l; r' ← TransformUp f r; f (InnerJoin l' r' e)
  | CrossJoin l r =>
      l' ← TransformUp f l; r' ← TransformUp f r; f (CrossJoin l' r')
  | NaturalJoin l r =>
      l' ← TransformUp f l; r' ← TransformUp f r; f (NaturalJoin l' r')
  | TableAlias a c => c' ← TransformUp f c; f (TableAlias a c')
  | Describe c => c' ← TransformUp f c; f (Describe c')
  | DecoratedNode d c => c' ← TransformUp f c; f (DecoratedNode d c')
  end.

End plan.

(** ** Package analyzer: star resolution (from the sources) *)

Module analyzer.

(** The inner loop of [expandStars]:
    [for i, col := range schema { if s.Table == "" || s.Table == col.Source
    { exprs = append(exprs, NewGetFieldWithTable(i, ...)) } }].
    [i] is the index of the head of [schema] in the whole schema and
    [exprs] the slice built so far. *)
Fixpoint starFields (table : string) (i : nat) (schema : Schema_t)
    (exprs : list Expression) : list Expression :=
  match schema with
  | [] => exprs
  | col :: rest =>
      starFields table (S i) rest
        (if bool_decide (table = "") || bool_decide (table = Source col)
         then exprs ++ [NewGetFieldWithTable i col]
         else exprs)
  end.

(** The outer loop of [expandStars], [for _, e := range exprs]; the
    argument [expressions] is the slice built so far. *)
Fixpoint expandStarsLoop (exprs : list Expression) (schema : Schema_t)
    (expressions : list Expression) : result (list Expression) :=
  match exprs with
  | [] => OK expressions
  | e :: rest =>
      match e with
      | Star table =>
          let exprs' := starFields table 0 schema [] in
          if bool_decide (length exprs' = 0) && negb (bool_decide (table = ""))
          then Err (ErrTableNotFound table)
          else expandStarsLoop rest schema (expressions ++ exprs')
      | _ => expandStarsLoop rest schema (expressions ++ [e])
      end
  end.

(** [expandStars(a, exprs, schema)]; the analyzer [a] is only logged to. *)
Definition expandStars (exprs : list Expression) (schema : Schema_t)
    : result (list Expression) :=
  expandStarsLoop exprs schema [].

(** The function [resolveStar] hands to [plan.TransformUp]. *)
Definition resolveStarNode (n : Node) : result Node :=
  if plan.Resolved n then OK n
  else
    match n with
    | Project projections child =>
        if negb (plan.Resolved child) then OK n
        else
          expressions ← expandStars projections (plan.Schema child);
          OK (Project expressions child)
    | GroupBy aggregate grouping child =>
        if negb (plan.Resolved child) then OK n
        else
          aggregate' ← expandStars aggregate (plan.Schema child);
          OK (GroupBy aggregate' grouping child)
    | _ => OK n
    end.

(** [resolveStar(ctx, a, n)]. *)
Definition resolveStar (n : Node) : result Node :=
  plan.TransformUp resolveStarNode n.

End analyzer.

(** ** What star expansion computes *)

(** The two node kinds the type switch of [resolveStar] names. *)
Definition isProjectOrGroupBy (n : Node) : bool :=
  match n with
  | Project _ _ | GroupBy _ _ _ => true
  | _ => false
  end.


(** The columns a star qualified by [table] selects from [schema]: all of
    them for the empty qualifier, otherwise those whose source table is
    [table]. *)
Definition starSelects (table : string) (col : Column) : Prop :=
  table = "" ∨ table = Source col.

#[global] Instance starSelects_dec table col : Decision (starSelects table col).
Proof. unfold starSelects. apply _. Defined.

(** The schema paired with its positions, counted from [i]. *)
Definition indexedFrom (i : nat) (schema : Schema_t) : list (nat * Column) :=
  imap (λ k col, (i + k, col)) schema.

(** The expansion of one star, stated on the indexed schema: the selected
    columns, in schema order, each as a [GetField] at its own position. *)
Definition starColumns (table : string) (schema : Schema_t) : list Expression :=
  (λ p, NewGetFieldWithTable p.1 p.2)
    <$> filter (λ p, starSelects table p.2) (indexedFrom 0 schema).

(** What one projected expression becomes. *)
Definition expandOne (schema : Schema_t) (e : Expression) : list Expression :=
  match e with
  | Star table => starColumns table schema
  | _ => [e]
  end.

(** A star that names a table no column of the schema comes from. *)
Definition missingStar (schema : Schema_t) (e : Expression) : Prop :=
  match e with
  | Star table => table ≠ "" ∧ ∀ col, col ∈ schema → Source col ≠ table
  | _ => False
  end.

#[global] Instance missingStar_dec schema e : Decision (missingStar schema e).
Proof.
  destruct e; simpl; try apply _.
  apply and_dec; [apply _|].
  destruct (decide (Forall (λ col, Source col ≠ table) schema)) as [H|H];
    [left|right]; by rewrite <- Forall_forall.
Defined.


(** ** Fixtures of analyzer_test.go *)

Module memory.

(** [memory.NewTable(name, schema)]: a table without pushdown capability. *)
Definition NewTable (name : string) (schema : Schema_t) : Table :=
  mkTable name schema [] false [] [].

(** [memory.NewPushdownTable(name, schema)]. *)
Definition NewPushdownTable (name : string) (schema : Schema_t) : Table :=
  mkTable name schema [] true [] [].

(** Modelled from the spec: [Table.WithProjection(columnNames)] returns the
    table narrowed to the named columns; no column name leaves the table as
    it is. *)
Definition WithProjection (t : Table) (names : list string) : Table :=
  match names with
  | [] => t
  | _ => mkTable (table_name t) (table_schema t) (table_rows t)
           (table_pushdown t) names (table_filters t)
  end.

(** Modelled from the spec: [Table.WithFilters(predicates)] returns the
    table narrowed to the rows that satisfy the predicates. *)
Definition WithFilters (t : Table) (filters : list Expression) : Table :=
  mkTable (table_name t) (table_schema t) (table_rows t)
    (table_pushdown t) (table_projection t) filters.

End memory.

Module fixtures.

(** The tables of [TestAnalyzer_Analyze]. *)
Definition table : Table :=
  memory.NewPushdownTable "mytable"
    [mkColumn "i" Int32 "mytable" false; mkColumn "t" Text "mytable" false].

Definition table2 : Table :=
  memory.NewPushdownTable "mytable2" [mkColumn "i2" Int32 "mytable2" false].

End fixtures.

(** ** The rule engine *)

(** Modelled from the spec: [Analyzer.Analyze], [Batch.Eval] and the rule
    and batch types are not in the sources.  A rule is a named function
    from the tree to a new tree or an error.  The rules of the tests are Go
    closures that may own state ([TestMaxIterations] counts its calls), so
    a rule here threads a state of type [St]; a rule without state is
    [pureRule].  Every call of [Analyze] in the tests passes a [nil] scope,
    and the model is of such calls. *)
Module engine.

Section rules.

Context {St : Type}.

(** The context of a call: the database the session is in. *)
Record Context := mkContext { CurrentDB : string }.

Definition RuleFunc : Type := Context → Node → St → result Node * St.

Record Rule := mkRule {
  rule_Name : string;
  rule_Apply : RuleFunc
}.

Record Batch := mkBatch {
  Desc : string;
  Iterations : nat;
  Rules : list Rule
}.

Record Analyzer := mkAnalyzer { Batches : list Batch }.

(** What a run of the engine yields: the result, the state the rules are
    left in, and the number of full passes over the rules the run made. *)
Record Run := mkRun {
  run_result : result Node;
  run_state : St;
  run_passes : nat
}.

Definition pureRule (f : Context → Node → result Node) : RuleFunc :=
  λ ctx n s, (f ctx n, s).

(** One pass: every rule of the batch, in order, each on the tree the
    previous one produced; the first error aborts the pass. *)
Fixpoint evalOnce (rules : list Rule) (ctx : Context) (n : Node) (s : St)
    : result Node * St :=
  match rules with
  | [] => (OK n, s)
  | r :: rest =>
      match rule_Apply r ctx n s with
      | (OK n', s') => evalOnce rest ctx n' s'
      | (Err e, s') => (Err e, s')
      end
  end.

(** Up to [k] passes: stop at the first pass that leaves the tree
    structurally equal to its input, or with the tree of the last pass when
    the passes are used up. *)
Fixpoint evalIter (k : nat) (rules : list Rule) (ctx : Context) (prev : Node)
    (s : St) : Run :=
  match k with
  | 0 => mkRun (OK prev) s 0
  | S k' =>
      match evalOnce rules ctx prev s with
      | (Err e, s') => mkRun (Err e) s' 1
      | (OK cur, s') =>
          if bool_decide (cur = prev) then mkRun (OK cur) s' 1
          else
            let r := evalIter k' rules ctx cur s' in
            mkRun (run_result r) (run_state r) (S (run_passes r))
      end
  end.

(** [Batch.Eval]. *)
Definition Eval (b : Batch) (ctx : Context) (n : Node) (s : St) : Run :=
  evalIter (Iterations b) (Rules b) ctx n s.

(** The batches in declared order, each on the tree the previous one
    returned; an error ends the analysis with that error. *)
Fixpoint analyzeBatches (bs : list Batch) (ctx : Context) (n : Node) (s : St)
    : Run :=
  match bs with
  | [] => mkRun (OK n) s 0
  | b :: rest =>
      let r := Eval b ctx n s in
      match run_result r with
      | OK n' =>
          let r' := analyzeBatches rest ctx n' (run_state r) in
          mkRun (run_result r') (run_state r') (run_passes r + run_passes r')
      | Err e => r
      end
  end.

(** [Analyzer.Analyze(ctx, n, nil)]. *)
Definition Analyze (a : Analyzer) (ctx : Context) (n : Node) (s : St) : Run :=
  analyzeBatches (Batches a) ctx n s.

(** The trees a batch goes through when every pass is made, fixed point or
    not: the tree and state after [k] passes from [n] and [s]. *)
Fixpoint passes (k : nat) (rules : list Rule) (ctx : Context) (n : Node)
    (s : St) : result Node * St :=
  match k with
  | 0 => (OK n, s)
  | S k' =>
      match evalOnce rules ctx n s with
      | (OK n', s') => passes k' rules ctx n' s'
      | (Err e, s') => (Err e, s')
      end
  end.

(** None of the first [k] passes fails or reaches a fixed point: pass
    [j + 1] turns the tree after [j] passes into a different tree. *)
Definition neverFixed (k : nat) (rules : list Rule) (ctx : Context) (n : Node)
    (s : St) : Prop :=
  ∀ j, j < k →
    ∃ prev s1 cur s2,
      passes j rules ctx n s = (OK prev, s1)
      ∧ evalOnce rules ctx prev s1 = (OK cur, s2)
      ∧ cur ≠ prev.


End rules.

Arguments RuleFunc : clear implicits.
Arguments Rule : clear implicits.
Arguments Batch : clear implicits.
Arguments Analyzer : clear implicits.
Arguments Run : clear implicits.

End engine.

(** ** The resolution rules that the sources do not contain *)

(** The catalog: database name to table name to table handle. *)
Abbreviation Database := (gmap string Table).
Abbreviation Catalog := (gmap string Database).

Module rules.

Import engine.

(** Modelled from the spec: table resolution is not in the sources.  An
    [UnresolvedTable] becomes the [ResolvedTable] of the handle the catalog
    serves for its name, in the database it names or else in the current
    one; a name the database does not have fails with [ErrTableNotFound]. *)
Definition resolveTablesNode (catalog : Catalog) (ctx : Context) (n : Node)
    : result Node :=
  match n with
  | UnresolvedTable name db =>
      let dbName := if bool_decide (db = "") then CurrentDB ctx else db in
      match catalog !! dbName with
      | None => Err (ErrDatabaseNotFound dbName)
      | Some database =>
          match database !! name with
          | None => Err (ErrTableNotFound name)
          | Some t => OK (ResolvedTable t)
          end
      end
  | _ => OK n
  end.

Definition resolveTables (catalog : Catalog) (ctx : Context) (n : Node)
    : result Node :=
  plan.TransformUp (resolveTablesNode catalog ctx) n.

(** Modelled from the spec: column resolution is not in the sources.  The
    columns of [schema] a reference may denote: those of that name, and of
    that source table when the reference is qualified. *)
Definition columnMatches (table name : string) (col : Column) : Prop :=
  Name col = name ∧ (table = "" ∨ Source col = table).

#[global] Instance columnMatches_dec table name col :
  Decision (columnMatches table name col).
Proof. unfold columnMatches. apply _. Defined.

(** No match fails with [ErrColumnNotFound]; several matches of a reference
    without qualifier fail with [ErrAmbiguousColumnName]; otherwise the
    reference becomes the [GetField] of the position of the match. *)
Definition lookupColumn (schema : Schema_t) (table name : string)
    : result Expression :=
  match filter (λ p, columnMatches table name p.2) (indexedFrom 0 schema) with
  | [] => Err (ErrColumnNotFound name)
  | [p] => OK (NewGetFieldWithTable p.1 p.2)
  | p :: _ =>
      if bool_decide (table = "") then Err (ErrAmbiguousColumnName name)
      else OK (NewGetFieldWithTable p.1 p.2)
  end.

Fixpoint resolveExpr (schema : Schema_t) (e : Expression) : result Expression :=
  match e with
  | UnresolvedColumn table name => lookupColumn schema table name
  | Alias a c => c' ← resolveExpr schema c; OK (Alias a c')
  | Equals l r =>
      l' ← resolveExpr schema l; r' ← resolveExpr schema r; OK (Equals l' r')
  | And l r =>
      l' ← resolveExpr schema l; r' ← resolveExpr schema r; OK (And l' r')
  | _ => OK e
  end.

(** The expressions of a list, in order; the first error aborts. *)
Fixpoint resolveExprs (schema : Schema_t) (es : list Expression)
    : result (list Expression) :=
  match es with
  | [] => OK []
  | e :: rest =>
      e' ← resolveExpr schema e;
      rest' ← resolveExprs schema rest;
      OK (e' :: rest')
  end.

(** A node whose children are resolved has its column references bound
    against the schema of its child, the concatenated schema of both sides
    for a join; a node with an unresolved child is returned unchanged. *)
Definition resolveColumnsNode (n : Node) : result Node :=
  if plan.Resolved n then OK n
  else
    match n with
    | Project ps c =>
        if negb (plan.Resolved c) then OK n
        else ps' ← resolveExprs (plan.Schema c) ps; OK (Project ps' c)
    | Filter e c =>
        if negb (plan.Resolved c) then OK n
        else e' ← resolveExpr (plan.Schema c) e; OK (Filter e' c)
    | GroupBy agg grp c =>
        if negb (plan.Resolved c) then OK n
        else
          agg' ← resolveExprs (plan.Schema c) agg;
          grp' ← resolveExprs (plan.Schema c) grp;
          OK (GroupBy agg' grp' c)
    | InnerJoin l r e =>
        if negb (plan.Resolved l && plan.Resolved r) then OK n
        else
          e' ← resolveExpr (plan.Schema l ++ plan.Schema r) e;
          OK (InnerJoin l r e')
    | _ => OK n
    end.

Definition resolveColumns (n : Node) : result Node :=
  plan.TransformUp resolveColumnsNode n.

(** [expression.JoinAnd]: the conjunction of the expressions, nested to
    the left; the conjunction of none is the literal [true]. *)
Definition JoinAnd (es : list Expression) : Expression :=
  match es with
  | [] => Literal (VBool true) Boolean
  | e :: rest => foldl And e rest
  end.

(** Modelled from the spec: natural-join expansion is not in the sources.
    The partner of a left column: the first right column of the same name,
    at its position in the concatenated schema of the join. *)
Definition rightPartner (offset : nat) (rs : Schema_t) (lcol : Column)
    : option (nat * Column) :=
  (λ p, (offset + p.1, p.2)) <$> list_find (λ rcol, Name rcol = Name lcol) rs.

(** The columns common by name, as pairs of positions in the concatenated
    schema; the left columns without partner; the right columns whose name
    no left column has. *)
Definition naturalJoinCommon (ls rs : Schema_t)
    : list ((nat * Column) * (nat * Column)) :=
  omap (λ lp, (λ rp, (lp, rp)) <$> rightPartner (length ls) rs lp.2)
       (indexedFrom 0 ls).

Definition naturalJoinLeft (ls rs : Schema_t) : list (nat * Column) :=
  filter (λ lp, rightPartner (length ls) rs lp.2 = None) (indexedFrom 0 ls).

Definition naturalJoinRight (ls rs : Schema_t) : list (nat * Column) :=
  filter (λ rp, Name rp.2 ∉ Name <$> ls) (indexedFrom (length ls) rs).

Definition fieldAt (p : nat * Column) : Expression :=
  NewGetFieldWithTable p.1 p.2.

(** The join condition: one equality per common column. *)
Definition naturalJoinCondition (ls rs : Schema_t) : Expression :=
  JoinAnd ((λ pr, Equals (fieldAt pr.1) (fieldAt pr.2))
             <$> naturalJoinCommon ls rs).

(** The projection above the join: the common columns once, from the left
    side, then the other left columns, then the right columns that are not
    duplicates. *)
Definition naturalJoinProjection (ls rs : Schema_t) : list Expression :=
  (fieldAt ∘ fst <$> naturalJoinCommon ls rs)
  ++ (fieldAt <$> naturalJoinLeft ls rs)
  ++ (fieldAt <$> naturalJoinRight ls rs).

(** A natural join whose sides are resolved becomes an inner join on the
    equality of the common columns, under the projection that drops the
    duplicate right columns. *)
Definition resolveNaturalJoinsNode (n : Node) : result Node :=
  if plan.Resolved n then OK n
  else
    match n with
    | NaturalJoin l r =>
        if negb (plan.Resolved l && plan.Resolved r) then OK n
        else
          OK (Project (naturalJoinProjection (plan.Schema l) (plan.Schema r))
                (InnerJoin l r
                   (naturalJoinCondition (plan.Schema l) (plan.Schema r))))
    | _ => OK n
    end.

Definition resolveNaturalJoins (n : Node) : result Node :=
  plan.TransformUp resolveNaturalJoinsNode n.

End rules.

(** ** Positional correctness of field references *)

(** Every [GetField] of [e] points at the column of [schema] that the
    [GetField] records: the same table and name, and the same type and
    nullability. *)
Fixpoint fieldsMatch (schema : Schema_t) (e : Expression) : bool :=
  match e with
  | GetField i typ table name nullable =>
      bool_decide (schema !! i = Some (mkColumn name typ table nullable))
  | Alias _ c => fieldsMatch schema c
  | Equals l r | And l r => fieldsMatch schema l && fieldsMatch schema r
  | _ => true
  end.

(** The same through a whole tree: the expressions of a node are checked
    against the schema the node reads, that of its child, or of both sides
    concatenated for a join. *)
Fixpoint WellIndexed (n : Node) : bool :=
  match n with
  | UnresolvedTable _ _ | ResolvedTable _ => true
  | Project ps c => forallb (fieldsMatch (plan.Schema c)) ps && WellIndexed c
  | Filter e c => fieldsMatch (plan.Schema c) e && WellIndexed c
  | GroupBy agg grp c =>
      forallb (fieldsMatch (plan.Schema c)) agg
      && forallb (fieldsMatch (plan.Schema c)) grp && WellIndexed c
  | InnerJoin l r e =>
      fieldsMatch (plan.Schema l ++ plan.Schema r) e
      && WellIndexed l && WellIndexed r
  | CrossJoin l r | NaturalJoin l r => WellIndexed l && WellIndexed r
  | Limit _ c | TableAlias _ c | Describe c | DecoratedNode _ c => WellIndexed c
  end.


(** No [GetField] occurs in [e]. *)
Fixpoint noFields (e : Expression) : bool :=
  match e with
  | GetField _ _ _ _ _ => false
  | Alias _ c => noFields c
  | Equals l r | And l r => noFields l && noFields r
  | _ => true
  end.

(** Field references sit above resolved children only: a node with an
    unresolved child holds no [GetField] yet, since the schema it would
    index is not known. *)
Fixpoint Guarded (n : Node) : bool :=
  match n with
  | UnresolvedTable _ _ | ResolvedTable _ => true
  | Project ps c => (plan.Resolved c || forallb noFields ps) && Guarded c
  | Filter e c => (plan.Resolved c || noFields e) && Guarded c
  | GroupBy agg grp c =>
      (plan.Resolved c || forallb noFields agg && forallb noFields grp)
      && Guarded c
  | InnerJoin l r e =>
      (plan.Resolved l && plan.Resolved r || noFields e)
      && Guarded l && Guarded r
  | CrossJoin l r | NaturalJoin l r => Guarded l && Guarded r
  | Limit _ c | TableAlias _ c | Describe c | DecoratedNode _ c => Guarded c
  end.

Module join_fixtures.

(** The tables of [TestMixInnerAndNaturalJoins]. *)
Definition table : Table :=
  memory.NewPushdownTable "mytable"
    [mkColumn "i" Int32 "mytable" false; mkColumn "f" Float64 "mytable" false;
     mkColumn "t" Text "mytable" false].

Definition table2 : Table :=
  memory.NewPushdownTable "mytable2"
    [mkColumn "i2" Int32 "mytable2" false; mkColumn "f2" Float64 "mytable2" false;
     mkColumn "t2" Text "mytable2" false].

Definition table3 : Table :=
  memory.NewPushdownTable "mytable3"
    [mkColumn "i" Int32 "mytable3" false; mkColumn "f2" Float64 "mytable3" false;
     mkColumn "t3" Text "mytable3" false].

(** The catalog of the test. *)
Definition catalog : Catalog :=
  <["mydb" := <["mytable3" := table3]>
                (<["mytable2" := table2]> (<["mytable" := table]> ∅))]> ∅.

(** The plan the test submits. *)
Definition node : Node :=
  Project [NewStar]
    (NaturalJoin
       (InnerJoin (UnresolvedTable "mytable" "") (UnresolvedTable "mytable2" "")
          (Equals (NewUnresolvedQualifiedColumn "mytable" "i")
                  (NewUnresolvedQualifiedColumn "mytable2" "i2")))
       (UnresolvedTable "mytable3" "")).

(** The natural join of the test once its sides are resolved: the tables
    are bound and the condition of the inner join points into the
    concatenated schema of its sides. *)
Definition resolvedSides : Node :=
  NaturalJoin
    (InnerJoin (ResolvedTable table) (ResolvedTable table2)
       (Equals (GetField 0 Int32 "mytable" "i" false)
               (GetField 3 Int32 "mytable2" "i2" false)))
    (ResolvedTable table3).

(** The plan the test expects. *)
Definition expected : Node :=
  Project
    [GetField 0 Int32 "mytable" "i" false;
     GetField 3 Float64 "mytable2" "f2" false;
     GetField 1 Float64 "mytable" "f" false;
     GetField 2 Text "mytable" "t" false;
     GetField 4 Int32 "mytable2" "i2" false;
     GetField 5 Text "mytable2" "t2" false;
     GetField 6 Text "mytable3" "t3" false]
    (InnerJoin
       (InnerJoin
          (DecoratedNode "Projected table access on [i f t]"
             (ResolvedTable (memory.WithProjection table ["i"; "f"; "t"])))
          (DecoratedNode "Projected table access on [f2 i2 t2]"
             (ResolvedTable (memory.WithProjection table2 ["f2"; "i2"; "t2"])))
          (Equals (GetField 0 Int32 "mytable" "i" false)
                  (GetField 4 Int32 "mytable2" "i2" false)))
       (DecoratedNode "Projected table access on [t3 i f2]"
          (ResolvedTable (memory.WithProjection table3 ["t3"; "i"; "f2"])))
       (And (Equals (GetField 0 Int32 "mytable" "i" false)
                    (GetField 7 Int32 "mytable3" "i" false))
            (Equals (GetField 3 Float64 "mytable2" "f2" false)
                    (GetField 8 Float64 "mytable3" "f2" false)))).

End join_fixtures.

(** ** Rows *)

(** Modelled from the spec: query execution is not in the sources.  Rows
    are what [Schema preservation under pushdown] compares; the model gives
    the nodes of that property their usual meaning and no rows to the nodes
    it does not execute. *)
Module exec.

Abbreviation Row := (list Value).

(** The value of a resolved expression on a row; a comparison with [NULL]
    is [NULL], and a conjunction is false as soon as one side is. *)
Fixpoint Evaluate (e : Expression) (row : Row) : Value :=
  match e with
  | GetField i _ _ _ _ => default VNull (row !! i)
  | Literal v _ => v
  | Alias _ c => Evaluate c row
  | Equals l r =>
      match Evaluate l row, Evaluate r row with
      | VNull, _ | _, VNull => VNull
      | a, b => VBool (bool_decide (a = b))
      end
  | And l r =>
      match Evaluate l row, Evaluate r row with
      | VBool false, _ | _, VBool false => VBool false
      | VBool true, VBool true => VBool true
      | _, _ => VNull
      end
  | _ => VNull
  end.

(** A row passes a predicate when the predicate evaluates to true. *)
Definition holds (e : Expression) (row : Row) : Prop :=
  Evaluate e row = VBool true.

#[global] Instance holds_dec e row : Decision (holds e row).
Proof. unfold holds. apply _. Defined.

(** A row of the full schema narrowed to the named columns, in the order
    of the names. *)
Definition projectRow (schema : Schema_t) (names : list string) (row : Row)
    : Row :=
  omap (λ n, (λ p, default VNull (row !! p.1))
               <$> list_find (λ c, Name c = n) schema) names.

(** The rows a table handle serves: the stored rows that pass every filter
    pushed into the table, narrowed to its projection. *)
Definition TableRows (t : Table) : list Row :=
  let kept := filter (λ row, Forall (λ f, holds f row) (table_filters t))
                     (table_rows t) in
  match table_projection t with
  | [] => kept
  | names => projectRow (table_schema t) names <$> kept
  end.

(** All concatenations of a left row with a right row. *)
Definition crossRows (lrows rrows : list Row) : list Row :=
  lrow ← lrows; rrow ← rrows; [lrow ++ rrow].

Fixpoint RowIter (n : Node) : option (list Row) :=
  match n with
  | ResolvedTable t => Some (TableRows t)
  | Project ps c =>
      match RowIter c with
      | Some rows => Some ((λ row, (λ e, Evaluate e row) <$> ps) <$> rows)
      | None => None
      end
  | Filter e c =>
      match RowIter c with
      | Some rows => Some (filter (holds e) rows)
      | None => None
      end
  | Limit k c =>
      match RowIter c with
      | Some rows => Some (take (Z.to_nat k) rows)
      | None => None
      end
  | CrossJoin l r =>
      match RowIter l, RowIter r with
      | Some lrows, Some rrows => Some (crossRows lrows rrows)
      | _, _ => None
      end
  | InnerJoin l r e =>
      match RowIter l, RowIter r with
      | Some lrows, Some rrows => Some (filter (holds e) (crossRows lrows rrows))
      | _, _ => None
      end
  | TableAlias _ c | DecoratedNode _ c => RowIter c
  | UnresolvedTable _ _ | NaturalJoin _ _ | GroupBy _ _ _ | Describe _ => None
  end.

End exec.

(** ** Pushdown *)

(** Modelled from the spec: the pushdown rule is not in the sources. *)
Module pushdown.

(** The conjuncts of a predicate. *)
Fixpoint splitConjunction (e : Expression) : list Expression :=
  match e with
  | And l r => splitConjunction l ++ splitConjunction r
  | _ => [e]
  end.

(** A pushable predicate: resolved, and referencing columns of the table
    [table] only. *)
Fixpoint onlyTable (table : string) (e : Expression) : bool :=
  match e with
  | GetField _ _ t _ _ => bool_decide (t = table)
  | UnresolvedColumn _ _ | Star _ => false
  | Alias _ c => onlyTable table c
  | Literal _ _ => true
  | Equals l r | And l r => onlyTable table l && onlyTable table r
  end.

(** A table-only subtree: a resolved table under descriptions. *)
Fixpoint tableOf (n : Node) : option Table :=
  match n with
  | ResolvedTable t => Some t
  | DecoratedNode _ c => tableOf c
  | _ => None
  end.

(** The subtree with its table replaced. *)
Fixpoint replaceTable (n new : Node) : Node :=
  match n with
  | DecoratedNode d c => DecoratedNode d (replaceTable c new)
  | _ => new
  end.

(** The column a projected expression names, when it is a bare column. *)
Definition fieldName (e : Expression) : option string :=
  match e with
  | GetField _ _ _ name _ => Some name
  | _ => None
  end.

Fixpoint joinStrings (l : list string) : string :=
  match l with
  | [] => ""
  | [x] => x
  | x :: rest => x +:+ " " +:+ joinStrings rest
  end.

(** The description a [DecoratedNode] carries:
    "Projected table access on [i t]". *)
Definition describe (what : string) (items : list string) : string :=
  what +:+ " table access on [" +:+ joinStrings items +:+ "]".

(** A [Filter] directly above a table with pushdown capability has its
    pushable conjuncts pushed into the table, the others stay in a [Filter]
    above; a [Project] of bare columns above a table-only subtree is
    replaced by the subtree with the table narrowed to those columns.  A
    table without the capability, or already narrowed, is left alone. *)
Definition pushdownNode (n : Node) : result Node :=
  match n with
  | Filter cond (ResolvedTable t) =>
      if table_pushdown t && bool_decide (table_projection t = [])
         && bool_decide (table_filters t = [])
      then
        let preds := splitConjunction cond in
        let pushed := filter (λ e, onlyTable (table_name t) e = true) preds in
        let kept := filter (λ e, onlyTable (table_name t) e ≠ true) preds in
        match pushed with
        | [] => OK n
        | _ =>
            let child :=
              DecoratedNode (describe "Filtered" (expression.String <$> pushed))
                (ResolvedTable (memory.WithFilters t pushed)) in
            match kept with
            | [] => OK child
            | _ => OK (Filter (rules.JoinAnd kept) child)
            end
        end
      else OK n
  | Project ps c =>
      match tableOf c, mapM fieldName ps with
      | Some t, Some (name :: names) =>
          if table_pushdown t && bool_decide (table_projection t = [])
          then
            OK (replaceTable c
                  (DecoratedNode (describe "Projected" (name :: names))
                     (ResolvedTable (memory.WithProjection t (name :: names)))))
          else OK n
      | _, _ => OK n
      end
  | _ => OK n
  end.

Definition pushdown (n : Node) : result Node :=
  plan.TransformUp pushdownNode n.

End pushdown.

(** The tables of a tree have columns of distinct names. *)
Fixpoint TablesDistinct (n : Node) : Prop :=
  match n with
  | UnresolvedTable _ _ => True
  | ResolvedTable t => NoDup (Name <$> table_schema t)
  | Project _ c | Filter _ c | GroupBy _ _ c | Limit _ c
  | TableAlias _ c | Describe c | DecoratedNode _ c => TablesDistinct c
  | InnerJoin l r _ | CrossJoin l r | NaturalJoin l r =>
      TablesDistinct l ∧ TablesDistinct r
  end.

(** ** The default analyzer *)

Module builder.

Import engine.

Section builder.

Context {St : Type}.

(** Modelled from the spec: the iteration ceiling of a batch; the spec
    gives 1000 passes, which [TestMaxIterations] observes. *)
Definition maxAnalysisIterations : nat := 1000.

(** Modelled from the spec: the resolution rules, in the order they are
    tried in a pass, and the pushdown rule that runs once they are done. *)
Definition DefaultRules (catalog : Catalog) : list (Rule St) :=
  [mkRule "resolve_tables" (pureRule (rules.resolveTables catalog));
   mkRule "resolve_natural_joins" (pureRule (λ _, rules.resolveNaturalJoins));
   mkRule "resolve_star" (pureRule (λ _, analyzer.resolveStar));
   mkRule "resolve_columns" (pureRule (λ _, rules.resolveColumns))].

Definition PushdownRules : list (Rule St) :=
  [mkRule "pushdown" (pureRule (λ _, pushdown.pushdown))].

(** The rules a caller adds to the phases. *)
Record Builder := mkBuilder {
  preValidationRules : list (Rule St);
  postValidationRules : list (Rule St);
  postAnalyzeRules : list (Rule St);
  catalog : Catalog
}.

Definition NewBuilder (c : Catalog) : Builder := mkBuilder [] [] [] c.

Definition AddPreValidationRule (ab : Builder) (name : string)
    (fn : RuleFunc St) : Builder :=
  mkBuilder (preValidationRules ab ++ [mkRule name fn])
    (postValidationRules ab) (postAnalyzeRules ab) (catalog ab).

Definition AddPostValidationRule (ab : Builder) (name : string)
    (fn : RuleFunc St) : Builder :=
  mkBuilder (preValidationRules ab)
    (postValidationRules ab ++ [mkRule name fn]) (postAnalyzeRules ab)
    (catalog ab).

Definition AddPostAnalyzeRule (ab : Builder) (name : string)
    (fn : RuleFunc St) : Builder :=
  mkBuilder (preValidationRules ab) (postValidationRules ab)
    (postAnalyzeRules ab ++ [mkRule name fn]) (catalog ab).

(** The batches in phase order: pre-validation, the main phase (resolution,
    then pushdown), post-validation, and the rules added after all. *)
Definition Build (ab : Builder) : Analyzer St :=
  mkAnalyzer
    [mkBatch "pre-validation" maxAnalysisIterations (preValidationRules ab);
     mkBatch "default-rules" maxAnalysisIterations (DefaultRules (catalog ab));
     mkBatch "pushdown" maxAnalysisIterations PushdownRules;
     mkBatch "post-validation" maxAnalysisIterations (postValidationRules ab);
     mkBatch "after-all" maxAnalysisIterations (postAnalyzeRules ab)].

Definition NewDefault (c : Catalog) : Analyzer St := Build (NewBuilder c).

(** [countRules] of analyzer_test.go: the loop
    [for _, b := range batches { count = count + len(b.Rules) }], with
    [count] the variable it updates. *)
Fixpoint countRulesLoop (batches : list (Batch St)) (count : nat) : nat :=
  match batches with
  | [] => count
  | b :: rest => countRulesLoop rest (count + length (Rules b))
  end.

Definition countRules (batches : list (Batch St)) : nat :=
  countRulesLoop batches 0.

End builder.

Arguments Builder : clear implicits.

End builder.

(** ** The catalogs and rules of analyzer_test.go *)

Module test_fixtures.

Import engine builder.

(** The catalog of [TestAnalyzer_Analyze]: database [mydb] with the two
    tables, and the context of the session. *)
Definition db : Database :=
  <["mytable2" := fixtures.table2]> (<["mytable" := fixtures.table]> ∅).

Definition catalog : Catalog := <["mydb" := db]> ∅.

Definition ctx : Context := mkContext "mydb".

(** The result of [a.Analyze(ctx, n, nil)] with the default analyzer over
    that catalog. *)
Definition analyze (n : Node) : result Node :=
  run_result (Analyze (NewDefault catalog) ctx n tt).

(** [TestMaxIterations]: the table, the catalog, and the rule that renames
    a resolved table on every call; [count] is the variable the closure
    increments. *)
Definition tName : string := "my-table".

Definition loopTable (name : string) : Table :=
  memory.NewTable name
    [mkColumn "i" Int32 name false; mkColumn "t" Text name false].

Definition loopCatalog : Catalog :=
  <["mydb" := <[tName := loopTable tName]> ∅]> ∅.

Definition loopRule : RuleFunc nat := λ _ n count,
  match n with
  | ResolvedTable _ =>
      let count' := S count in
      let name := "mytable-" +:+ pretty count' in
      (OK (ResolvedTable (loopTable name)), count')
  | _ => (OK n, count)
  end.

(** The pushdown scenario of [TestAnalyzer_Analyze], resolved:
    [SELECT i FROM mytable WHERE i = 1], over the table of the test holding
    three rows. *)
Definition tableWithRows : Table :=
  mkTable "mytable"
    [mkColumn "i" Int32 "mytable" false; mkColumn "t" Text "mytable" false]
    [[VInt 1; VText "a"]; [VInt 2; VText "b"]; [VInt 1; VText "c"]]
    true [] [].

Definition selectWhere : Node :=
  Project [GetField 0 Int32 "mytable" "i" false]
    (Filter (Equals (GetField 0 Int32 "mytable" "i" false)
                    (Literal (VInt 1) Int32))
       (ResolvedTable tableWithRows)).

Definition loopAnalyzer : Analyzer nat :=
  Build (AddPostAnalyzeRule (NewBuilder loopCatalog) "loop" loopRule).

(** [k] calls of the rule of [TestMaxIterations] in a row, each on the tree
    and the counter the call before left. *)
Fixpoint loopRuleTimes (k : nat) (c : Context) (n : Node) (count : nat)
    : result Node * nat :=
  match k with
  | 0 => (OK n, count)
  | S k' =>
      match loopRule c n count with
      | (OK n', count') => loopRuleTimes k' c n' count'
      | (Err e, count') => (Err e, count')
      end
  end.

End test_fixtures.

(** ** Further notions on star resolution *)

Definition isStar (e : Expression) : bool :=
  match e with Star _ => true | _ => false end.

(** The qualifiers of the stars at the top of a list. *)
Definition starTables (es : list Expression) : list string :=
  omap (λ e, match e with Star t => Some t | _ => None end) es.

(** A field reference moved [k] positions to the right, as for a column of
    the right side of a join. *)
Definition shiftField (k : nat) (e : Expression) : Expression :=
  match e with
  | GetField i typ table name nullable => GetField (k + i) typ table name nullable
  | _ => e
  end.

(** The tree without the lists that star expansion rewrites: the
    projections of a [Project] and the aggregate of a [GroupBy]. *)
Fixpoint skeleton (n : Node) : Node :=
  match n with
  | UnresolvedTable _ _ | ResolvedTable _ => n
  | Project _ c => Project [] (skeleton c)
  | Filter e c => Filter e (skeleton c)
  | GroupBy _ grp c => GroupBy [] grp (skeleton c)
  | Limit k c => Limit k (skeleton c)
  | InnerJoin l r e => InnerJoin (skeleton l) (skeleton r) e
  | CrossJoin l r => CrossJoin (skeleton l) (skeleton r)
  | NaturalJoin l r => NaturalJoin (skeleton l) (skeleton r)
  | TableAlias a c => TableAlias a (skeleton c)
  | Describe c => Describe (skeleton c)
  | DecoratedNode d c => DecoratedNode d (skeleton c)
  end.

(** The qualifiers of the stars that a pass may expand: those at the top
    of the list of a [Project] or of the aggregate of a [GroupBy], anywhere
    in the tree. *)
Fixpoint starQualifiers (n : Node) : list string :=
  match n with
  | UnresolvedTable _ _ | ResolvedTable _ => []
  | Project ps c => starTables ps ++ starQualifiers c
  | GroupBy agg _ c => starTables agg ++ starQualifiers c
  | Filter _ c | Limit _ c | TableAlias _ c | Describe c
  | DecoratedNode _ c => starQualifiers c
  | InnerJoin l r _ | CrossJoin l r | NaturalJoin l r =>
      starQualifiers l ++ starQualifiers r
  end.

(** No [Project] or [GroupBy] over a resolved child has a star left at the
    top of its list. *)
Fixpoint StarsExpanded (n : Node) : bool :=
  match n with
  | UnresolvedTable _ _ | ResolvedTable _ => true
  | Project ps c =>
      (negb (plan.Resolved c) || forallb (negb ∘ isStar) ps) && StarsExpanded c
  | GroupBy agg _ c =>
      (negb (plan.Resolved c) || forallb (negb ∘ isStar) agg) && StarsExpanded c
  | Filter _ c | Limit _ c | TableAlias _ c | Describe c
  | DecoratedNode _ c => StarsExpanded c
  | InnerJoin l r _ | CrossJoin l r | NaturalJoin l r =>
      StarsExpanded l && StarsExpanded r
  end.

(** ** Package grant_tables: the [user] grant table *)

Module grant_tables.

Definition userTblName : string := "user".

(** [userUserCols]. *)
Definition userUserCols : list nat := [1].

(** The four errors of the keys. *)
Inductive KeyError :=
| errUserPkEntry
| errUserPkRow
| errUserSkEntry
| errUserSkRow.

#[global] Instance KeyError_eq_dec : EqDecision KeyError.
Proof. solve_decision. Defined.

(** What a Go call does: it returns, or it panics (here: an index out of
    range, or the [panic] of [addSuperUser]). *)
Inductive outcome (A : Type) :=
| Returned (a : A)
| Panicked.
Arguments Returned {A} a.
Arguments Panicked {A}.

(** [UserPrimaryKey] and [UserSecondaryKey]. *)
Record UserPrimaryKey := mkUserPrimaryKey { pk_Host : string; pk_User : string }.
Record UserSecondaryKey := mkUserSecondaryKey { sk_User : string }.

#[global] Instance UserPrimaryKey_eq_dec : EqDecision UserPrimaryKey.
Proof. solve_decision. Defined.
#[global] Instance UserSecondaryKey_eq_dec : EqDecision UserSecondaryKey.
Proof. solve_decision. Defined.

(** The privileges [addSuperUser] names. *)
Inductive PrivilegeType :=
| PrivilegeType_Select
| PrivilegeType_Insert
| PrivilegeType_Update
| PrivilegeType_Delete
| PrivilegeType_Create
| PrivilegeType_Drop
| PrivilegeType_Reload
| PrivilegeType_Shutdown
| PrivilegeType_Process
| PrivilegeType_File
| PrivilegeType_Grant
| PrivilegeType_References
| PrivilegeType_Index
| PrivilegeType_Alter
| PrivilegeType_ShowDB
| PrivilegeType_Super
| PrivilegeType_CreateTempTable
| PrivilegeType_LockTables
| PrivilegeType_Execute
| PrivilegeType_ReplicationSlave
| PrivilegeType_ReplicationClient
| PrivilegeType_CreateView
| PrivilegeType_ShowView
| PrivilegeType_CreateRoutine
| PrivilegeType_AlterRoutine
| PrivilegeType_CreateUser
| PrivilegeType_Event
| PrivilegeType_Trigger
| PrivilegeType_CreateTablespace
| PrivilegeType_CreateRole
| PrivilegeType_DropRole.

#[global] Instance PrivilegeType_eq_dec : EqDecision PrivilegeType.
Proof. solve_decision. Defined.

Definition PrivilegeType_to_nat (p : PrivilegeType) : nat :=
  match p with
  | PrivilegeType_Select => 0
  | PrivilegeType_Insert => 1
  | PrivilegeType_Update => 2
  | PrivilegeType_Delete => 3
  | PrivilegeType_Create => 4
  | PrivilegeType_Drop => 5
  | PrivilegeType_Reload => 6
  | PrivilegeType_Shutdown => 7
  | PrivilegeType_Process => 8
  | PrivilegeType_File => 9
  | PrivilegeType_Grant => 10
  | PrivilegeType_References => 11
  | PrivilegeType_Index => 12
  | PrivilegeType_Alter => 13
  | PrivilegeType_ShowDB => 14
  | PrivilegeType_Super => 15
  | PrivilegeType_CreateTempTable => 16
  | PrivilegeType_LockTables => 17
  | PrivilegeType_Execute => 18
  | PrivilegeType_ReplicationSlave => 19
  | PrivilegeType_ReplicationClient => 20
  | PrivilegeType_CreateView => 21
  | PrivilegeType_ShowView => 22
  | PrivilegeType_CreateRoutine => 23
  | PrivilegeType_AlterRoutine => 24
  | PrivilegeType_CreateUser => 25
  | PrivilegeType_Event => 26
  | PrivilegeType_Trigger => 27
  | PrivilegeType_CreateTablespace => 28
  | PrivilegeType_CreateRole => 29
  | PrivilegeType_DropRole => 30
  end.

Definition PrivilegeType_of_nat (k : nat) : PrivilegeType :=
  match k with
  | 0 => PrivilegeType_Select
  | 1 => PrivilegeType_Insert
  | 2 => PrivilegeType_Update
  | 3 => PrivilegeType_Delete
  | 4 => PrivilegeType_Create
  | 5 => PrivilegeType_Drop
  | 6 => PrivilegeType_Reload
  | 7 => PrivilegeType_Shutdown
  | 8 => PrivilegeType_Process
  | 9 => PrivilegeType_File
  | 10 => PrivilegeType_Grant
  | 11 => PrivilegeType_References
  | 12 => PrivilegeType_Index
  | 13 => PrivilegeType_Alter
  | 14 => PrivilegeType_ShowDB
  | 15 => PrivilegeType_Super
  | 16 => PrivilegeType_CreateTempTable
  | 17 => PrivilegeType_LockTables
  | 18 => PrivilegeType_Execute
  | 19 => PrivilegeType_ReplicationSlave
  | 20 => PrivilegeType_ReplicationClient
  | 21 => PrivilegeType_CreateView
  | 22 => PrivilegeType_ShowView
  | 23 => PrivilegeType_CreateRoutine
  | 24 => PrivilegeType_AlterRoutine
  | 25 => PrivilegeType_CreateUser
  | 26 => PrivilegeType_Event
  | 27 => PrivilegeType_Trigger
  | 28 => PrivilegeType_CreateTablespace
  | 29 => PrivilegeType_CreateRole
  | _ => PrivilegeType_DropRole
  end.

#[global] Instance PrivilegeType_countable : Countable PrivilegeType.
Proof.
  apply (inj_countable' PrivilegeType_to_nat PrivilegeType_of_nat).
  intros p. destruct p; reflexivity.
Defined.

(** The fields of [User] that [addSuperUser] sets; the time is in seconds
    since the epoch. *)
Record User := mkUser {
  user_User : string;
  user_Host : string;
  user_PrivilegeSet : gset PrivilegeType;
  user_Plugin : string;
  user_Password : string;
  user_PasswordLastChanged : Z;
  user_Locked : bool;
  user_Attributes : option string;
  user_IsRole : bool
}.

(** An [in_mem_table.Entry]: a [*User] that points at a user, a [*User]
    that is [nil], or an entry of another type. *)
Inductive Entry :=
| EntryUser (user : User)
| EntryNilUser
| EntryOther.

(** The types and the column templates of [init]: type, default value
    ([None] for [nil]) and nullability. *)
Inductive GrantType :=
| char32_utf8_bin
| char64_utf8_bin
| char255_ascii_general_ci
| enum_ANY_X509_SPECIFIED_utf8_general_ci
| enum_N_Y_utf8_general_ci
| text_utf8_bin
| Blob
| Uint32
| Uint16
| JSON
| Timestamp.

Record ColumnTemplate := mkTemplate {
  tpl_Type : GrantType;
  tpl_Default : option Value;
  tpl_Nullable : bool
}.

Definition blob_not_null_default_empty : ColumnTemplate :=
  mkTemplate Blob (Some (VText "")) false.
Definition char32_utf8_bin_not_null_default_empty : ColumnTemplate :=
  mkTemplate char32_utf8_bin (Some (VText "")) false.
Definition char64_utf8_bin_not_null_default_caching_sha2_password
    : ColumnTemplate :=
  mkTemplate char64_utf8_bin (Some (VText "caching_sha2_password")) false.
Definition char255_ascii_general_ci_not_null_default_empty : ColumnTemplate :=
  mkTemplate char255_ascii_general_ci (Some (VText "")) false.
Definition enum_ANY_X509_SPECIFIED_utf8_general_ci_not_null_default_empty
    : ColumnTemplate :=
  mkTemplate enum_ANY_X509_SPECIFIED_utf8_general_ci (Some (VText "")) false.
Definition enum_N_Y_utf8_general_ci_not_null_default_N : ColumnTemplate :=
  mkTemplate enum_N_Y_utf8_general_ci (Some (VText "N")) false.
Definition enum_N_Y_utf8_general_ci_nullable_default_nil : ColumnTemplate :=
  mkTemplate enum_N_Y_utf8_general_ci None true.
Definition int_unsigned_not_null_default_0 : ColumnTemplate :=
  mkTemplate Uint32 (Some (VInt 0)) false.
Definition json_nullable_default_nil : ColumnTemplate :=
  mkTemplate JSON None true.
Definition smallint_unsigned_nullable_default_nil : ColumnTemplate :=
  mkTemplate Uint16 None true.
Definition text_utf8_bin_nullable_default_empty : ColumnTemplate :=
  mkTemplate text_utf8_bin (Some (VText "")) true.
Definition timestamp_nullable_default_nil : ColumnTemplate :=
  mkTemplate Timestamp None true.

(** A column of the grant table.  [columnTemplate] is not in the sources:
    the column is kept as the four arguments of the call, the first of
    which is its name. *)
Record GrantColumn := columnTemplate {
  gc_Name : string;
  gc_Source : string;
  gc_PrimaryKey : bool;
  gc_Template : ColumnTemplate
}.

(** The schema [init] assigns to [userTblSchema]. *)
Definition userTblSchema : list GrantColumn :=
  [columnTemplate "Host" userTblName true char255_ascii_general_ci_not_null_default_empty;
  columnTemplate "User" userTblName true char32_utf8_bin_not_null_default_empty;
  columnTemplate "Select_priv" userTblName false enum_N_Y_utf8_general_ci_not_null_default_N;
  columnTemplate "Insert_priv" userTblName false enum_N_Y_utf8_general_ci_not_null_default_N;
  columnTemplate "Update_priv" userTblName false enum_N_Y_utf8_general_ci_not_null_default_N;
  columnTemplate "Delete_priv" userTblName false enum_N_Y_utf8_general_ci_not_null_default_N;
  columnTemplate "Create_priv" userTblName false enum_N_Y_utf8_general_ci_not_null_default_N;
  columnTemplate "Drop_priv" userTblName false enum_N_Y_utf8_general_ci_not_null_default_N;
  columnTemplate "Reload_priv" userTblName false enum_N_Y_utf8_general_ci_not_null_default_N;
  columnTemplate "Shutdown_priv" userTblName false enum_N_Y_utf8_general_ci_not_null_default_N;
  columnTemplate "Process_priv" userTblName false enum_N_Y_utf8_general_ci_not_null_default_N;
  columnTemplate "File_priv" userTblName false enum_N_Y_utf8_general_ci_not_null_default_N;
  columnTemplate "Grant_priv" userTblName false enum_N_Y_utf8_general_ci_not_null_default_N;
  columnTemplate "References_priv" userTblName false enum_N_Y_utf8_general_ci_not_null_default_N;
  columnTemplate "Index_priv" userTblName false enum_N_Y_utf8_general_ci_not_null_default_N;
  columnTemplate "Alter_priv" userTblName false enum_N_Y_utf8_general_ci_not_null_default_N;
  columnTemplate "Show_db_priv" userTblName false enum_N_Y_utf8_general_ci_not_null_default_N;
  columnTemplate "Super_priv" userTblName false enum_N_Y_utf8_general_ci_not_null_default_N;
  columnTemplate "Create_tmp_table_priv" userTblName false enum_N_Y_utf8_general_ci_not_null_default_N;
  columnTemplate "Lock_tables_priv" userTblName false enum_N_Y_utf8_general_ci_not_null_default_N;
  columnTemplate "Execute_priv" userTblName false enum_N_Y_utf8_general_ci_not_null_default_N;
  columnTemplate "Repl_slave_priv" userTblName false enum_N_Y_utf8_general_ci_not_null_default_N;
  columnTemplate "Repl_client_priv" userTblName false enum_N_Y_utf8_general_ci_not_null_default_N;
  columnTemplate "Create_view_priv" userTblName false enum_N_Y_utf8_general_ci_not_null_default_N;
  columnTemplate "Show_view_priv" userTblName false enum_N_Y_utf8_general_ci_not_null_default_N;
  columnTemplate "Create_routine_priv" userTblName false enum_N_Y_utf8_general_ci_not_null_default_N;
  columnTemplate "Alter_routine_priv" userTblName false enum_N_Y_utf8_general_ci_not_null_default_N;
  columnTemplate "Create_user_priv" userTblName false enum_N_Y_utf8_general_ci_not_null_default_N;
  columnTemplate "Event_priv" userTblName false enum_N_Y_utf8_general_ci_not_null_default_N;
  columnTemplate "Trigger_priv" userTblName false enum_N_Y_utf8_general_ci_not_null_default_N;
  columnTemplate "Create_tablespace_priv" userTblName false enum_N_Y_utf8_general_ci_not_null_default_N;
  columnTemplate "ssl_type" userTblName false enum_ANY_X509_SPECIFIED_utf8_general_ci_not_null_default_empty;
  columnTemplate "ssl_cipher" userTblName false blob_not_null_default_empty;
  columnTemplate "x509_issuer" userTblName false blob_not_null_default_empty;
  columnTemplate "x509_subject" userTblName false blob_not_null_default_empty;
  columnTemplate "max_questions" userTblName false int_unsigned_not_null_default_0;
  columnTemplate "max_updates" userTblName false int_unsigned_not_null_default_0;
  columnTemplate "max_connections" userTblName false int_unsigned_not_null_default_0;
  columnTemplate "max_user_connections" userTblName false int_unsigned_not_null_default_0;
  columnTemplate "plugin" userTblName false char64_utf8_bin_not_null_default_caching_sha2_password;
  columnTemplate "authentication_string" userTblName false text_utf8_bin_nullable_default_empty;
  columnTemplate "password_expired" userTblName false enum_N_Y_utf8_general_ci_not_null_default_N;
  columnTemplate "password_last_changed" userTblName false timestamp_nullable_default_nil;
  columnTemplate "password_lifetime" userTblName false smallint_unsigned_nullable_default_nil;
  columnTemplate "account_locked" userTblName false enum_N_Y_utf8_general_ci_not_null_default_N;
  columnTemplate "Create_role_priv" userTblName false enum_N_Y_utf8_general_ci_not_null_default_N;
  columnTemplate "Drop_role_priv" userTblName false enum_N_Y_utf8_general_ci_not_null_default_N;
  columnTemplate "Password_reuse_history" userTblName false smallint_unsigned_nullable_default_nil;
  columnTemplate "Password_reuse_time" userTblName false smallint_unsigned_nullable_default_nil;
  columnTemplate "Password_require_current" userTblName false enum_N_Y_utf8_general_ci_nullable_default_nil;
  columnTemplate "User_attributes" userTblName false json_nullable_default_nil].

(** The loop of [init],
    [for i, col := range userTblSchema { userTblColIdxMap[col.Name] = i }];
    [i] is the index of the head of [schema] and [m] the map so far. *)
Fixpoint buildColIdxMap (i : nat) (schema : list GrantColumn)
    (m : gmap string nat) : gmap string nat :=
  match schema with
  | [] => m
  | col :: rest => buildColIdxMap (S i) rest (<[gc_Name col := i]> m)
  end.

(** The two package variables the keys read. *)
Record Globals := mkGlobals {
  g_userTblSchema : list GrantColumn;
  g_userTblColIdxMap : gmap string nat
}.

(** The variables as declared, before [init], and as [init] leaves them. *)
Definition declared : Globals := mkGlobals [] ∅.

Definition init (g : Globals) : Globals :=
  mkGlobals userTblSchema
    (buildColIdxMap 0 userTblSchema (g_userTblColIdxMap g)).

(** [m[k]] on a Go map of ints: a missing key reads as 0. *)
Definition mapIndex (m : gmap string nat) (k : string) : nat :=
  default 0 (m !! k).

(** [UserPrimaryKey.KeyFromEntry]; the key returned with an error is
    [nil], and the type assertion on [entry] holds of a [nil] pointer to a
    user, whose fields are then read. *)
Definition UserPrimaryKey_KeyFromEntry (u : UserPrimaryKey) (entry : Entry)
    : outcome (option UserPrimaryKey * option KeyError) :=
  match entry with
  | EntryUser user =>
      Returned
        (Some (mkUserPrimaryKey (user_Host user) (user_User user)), None)
  | EntryNilUser => Panicked
  | EntryOther => Returned (None, Some errUserPkEntry)
  end.

(** [UserPrimaryKey.KeyFromRow]; [row[i]] panics when [i] is out of
    range, and [.(string)] succeeds on a string only. *)
Definition UserPrimaryKey_KeyFromRow (g : Globals) (u : UserPrimaryKey)
    (row : list Value) : outcome (UserPrimaryKey * option KeyError) :=
  if negb (bool_decide (length row = length (g_userTblSchema g)))
  then Returned (u, Some errUserPkRow)
  else
    match row !! mapIndex (g_userTblColIdxMap g) "Host" with
    | None => Panicked
    | Some (VText host) =>
        match row !! mapIndex (g_userTblColIdxMap g) "User" with
        | None => Panicked
        | Some (VText user) => Returned (mkUserPrimaryKey host user, None)
        | Some _ => Returned (u, Some errUserPkRow)
        end
    | Some _ => Returned (u, Some errUserPkRow)
    end.

(** [UserSecondaryKey.KeyFromEntry]. *)
Definition UserSecondaryKey_KeyFromEntry (u : UserSecondaryKey) (entry : Entry)
    : outcome (option UserSecondaryKey * option KeyError) :=
  match entry with
  | EntryUser user =>
      Returned (Some (mkUserSecondaryKey (user_User user)), None)
  | EntryNilUser => Panicked
  | EntryOther => Returned (None, Some errUserSkEntry)
  end.

(** [UserSecondaryKey.KeyFromRow]. *)
Definition UserSecondaryKey_KeyFromRow (g : Globals) (u : UserSecondaryKey)
    (row : list Value) : outcome (UserSecondaryKey * option KeyError) :=
  if negb (bool_decide (length row = length (g_userTblSchema g)))
  then Returned (u, Some errUserSkRow)
  else
    match row !! mapIndex (g_userTblColIdxMap g) "User" with
    | None => Panicked
    | Some (VText user) => Returned (mkUserSecondaryKey user, None)
    | Some _ => Returned (u, Some errUserSkRow)
    end.




End grant_tables.
(** * Theorems *)

(** ** Facts on the inner loop of [expandStars] *)

Section expandStars_facts.

Import analyzer.

Lemma indexedFrom_cons i col schema :
  indexedFrom i (col :: schema) = (i, col) :: indexedFrom (S i) schema.
Proof.
  unfold indexedFrom. rewrite imap_cons. f_equal; [f_equal; lia|].
  apply imap_ext. intros k c _. simpl. f_equal. lia.
Qed.

Lemma starFields_acc table schema : ∀ i exprs,
  starFields table i schema exprs
  = exprs ++ ((λ p, NewGetFieldWithTable p.1 p.2)
              <$> filter (λ p, starSelects table p.2) (indexedFrom i schema)).
Proof.
  induction schema as [|col rest IH]; intros i exprs; simpl.
  - by rewrite app_nil_r.
  - rewrite IH, indexedFrom_cons, filter_cons, <- bool_decide_or. simpl.
    fold (starSelects table col). rewrite bool_decide_decide.
    destruct (decide (starSelects table col)); [|done].
    by rewrite <- app_assoc.
Qed.

Lemma starFields_starColumns table schema :
  starFields table 0 schema [] = starColumns table schema.
Proof. by rewrite starFields_acc. Qed.

End expandStars_facts.

(** ** Facts on the expansion of one star *)

Section starColumns_facts.

Lemma filter_Forall_id {A} (P : A → Prop) `{!∀ x, Decision (P x)} (l : list A) :
  Forall P l → filter P l = l.
Proof.
  induction 1 as [|x l Hx _ IH]; [done|].
  by rewrite filter_cons_True, IH.
Qed.

Lemma fmap_sublist {A B} (f : A → B) (l1 l2 : list A) :
  l1 `sublist_of` l2 → f <$> l1 `sublist_of` f <$> l2.
Proof. induction 1; simpl; by constructor. Qed.

Lemma indexedFrom_lookup schema : ∀ i k col,
  indexedFrom i schema !! k = Some (i + k, col) ↔ schema !! k = Some col.
Proof.
  intros i k col. unfold indexedFrom. rewrite list_lookup_imap.
  destruct (schema !! k) as [c|]; simpl; [|done].
  split; intros [= ->]; done.
Qed.

Lemma elem_of_indexedFrom schema i p :
  p ∈ indexedFrom i schema ↔ ∃ k, p.1 = i + k ∧ schema !! k = Some p.2.
Proof.
  unfold indexedFrom. rewrite list_elem_of_lookup. split.
  - intros [k Hk]. rewrite list_lookup_imap in Hk.
    destruct (schema !! k) as [c|] eqn:Hc; simplify_eq/=. eauto.
  - intros [k [H1 H2]]. exists k. rewrite list_lookup_imap, H2. simpl.
    destruct p; simpl in *; by subst.
Qed.

(** An unqualified star selects every column: the expansion is the schema
    itself, column [k] turned into the [GetField] of index [k]. *)
Lemma starColumns_unqualified schema :
  starColumns "" schema = imap NewGetFieldWithTable schema.
Proof.
  unfold starColumns.
  rewrite filter_Forall_id.
  - unfold indexedFrom. rewrite fmap_imap. by apply imap_ext.
  - apply Forall_forall. intros p _. by left.
Qed.

(** Membership in the expansion of a star. *)
Lemma elem_of_starColumns table schema e :
  e ∈ starColumns table schema ↔
  ∃ i col, schema !! i = Some col ∧ starSelects table col
           ∧ e = NewGetFieldWithTable i col.
Proof.
  unfold starColumns. rewrite list_elem_of_fmap. split.
  - intros [[i col] [-> [Hsel Hin]%list_elem_of_filter]].
    apply elem_of_indexedFrom in Hin as [k [Hk Hcol]]. simpl in *. subst.
    eauto.
  - intros (i & col & Hcol & Hsel & ->). exists (i, col). split; [done|].
    apply list_elem_of_filter. split; [done|].
    apply elem_of_indexedFrom. exists i. done.
Qed.

(** The expansion keeps the schema order and takes each column at most
    once: it is a sublist of the expansion of the unqualified star. *)
Lemma starColumns_sublist table schema :
  starColumns table schema `sublist_of` imap NewGetFieldWithTable schema.
Proof.
  rewrite <- starColumns_unqualified. unfold starColumns.
  apply fmap_sublist.
  rewrite (filter_Forall_id (λ p, starSelects "" p.2)).
  - apply sublist_filter.
  - apply Forall_forall. intros p _. by left.
Qed.

(** The expansion is empty exactly when no column is selected. *)
Lemma starColumns_nil table schema :
  starColumns table schema = [] ↔ ∀ col, col ∈ schema → ¬ starSelects table col.
Proof.
  split.
  - intros Hnil col [i Hi]%list_elem_of_lookup Hsel.
    assert (NewGetFieldWithTable i col ∈ starColumns table schema) as Hin
      by (apply elem_of_starColumns; eauto).
    rewrite Hnil in Hin. by apply not_elem_of_nil in Hin.
  - intros Hno. destruct (starColumns table schema) as [|e es] eqn:Heq; [done|].
    assert (e ∈ starColumns table schema) as Hin by (rewrite Heq; left).
    apply elem_of_starColumns in Hin as (i & col & Hcol & Hsel & _).
    exfalso. eapply Hno; [|done]. eapply list_elem_of_lookup_2, Hcol.
Qed.

End starColumns_facts.

(** ** Facts on [expandStars] *)

Section expandStars_results.

Import analyzer.

(** The test [len(exprs) == 0 && s.Table != ""] of [expandStars]. *)
Lemma star_check_missing table schema :
  bool_decide (length (starFields table 0 schema []) = 0)
  && negb (bool_decide (table = "")) = true
  ↔ missingStar schema (Star table).
Proof.
  rewrite starFields_starColumns, andb_true_iff, negb_true_iff.
  rewrite bool_decide_eq_true, bool_decide_eq_false, length_zero_iff_nil.
  rewrite starColumns_nil. simpl. unfold starSelects. split.
  - intros [Hno Hne]. split; [done|]. intros col Hcol Heq.
    apply (Hno col Hcol). by right.
  - intros [Hne Hno]. split; [|done]. intros col Hcol [?|Heq]; [done|].
    by apply (Hno col Hcol).
Qed.

Lemma expandStarsLoop_OK schema exprs : ∀ expressions,
  (∀ e, e ∈ exprs → ¬ missingStar schema e) →
  expandStarsLoop exprs schema expressions
  = OK (expressions ++ concat (expandOne schema <$> exprs)).
Proof.
  induction exprs as [|e rest IH]; intros acc Hok; simpl.
  - by rewrite app_nil_r.
  - assert (∀ e', e' ∈ rest → ¬ missingStar schema e') as Hrest
      by (intros e' He'; apply Hok; by right).
    assert (¬ missingStar schema e) as He by (apply Hok; left).
    destruct e; try (rewrite IH by done; by rewrite <- app_assoc).
    destruct (bool_decide _ && negb _) eqn:Hchk.
    + by apply star_check_missing in Hchk.
    + rewrite IH by done. by rewrite <- app_assoc, starFields_starColumns.
Qed.

Lemma expandStarsLoop_Err schema pre table post : ∀ expressions,
  (∀ e, e ∈ pre → ¬ missingStar schema e) →
  missingStar schema (Star table) →
  expandStarsLoop (pre ++ Star table :: post) schema expressions
  = Err (ErrTableNotFound table).
Proof.
  induction pre as [|e rest IH]; intros acc Hpre Hmiss; simpl.
  - apply star_check_missing in Hmiss. by rewrite Hmiss.
  - assert (∀ e', e' ∈ rest → ¬ missingStar schema e') as Hrest
      by (intros e' He'; apply Hpre; by right).
    assert (¬ missingStar schema e) as He by (apply Hpre; left).
    destruct e; try by apply IH.
    destruct (bool_decide _ && negb _) eqn:Hchk; [|by apply IH].
    by apply star_check_missing in Hchk.
Qed.

(** Either no star of the list is missing its table, or there is a first
    one that is. *)
Lemma first_missingStar schema exprs :
  (∀ e, e ∈ exprs → ¬ missingStar schema e)
  ∨ ∃ pre table post,
      exprs = pre ++ Star table :: post
      ∧ (∀ e, e ∈ pre → ¬ missingStar schema e)
      ∧ missingStar schema (Star table).
Proof.
  induction exprs as [|e rest IH].
  - left. intros e He. by apply not_elem_of_nil in He.
  - destruct (decide (missingStar schema e)) as [Hm|Hm].
    + right. destruct e; try done. exists [], table, rest.
      split_and!; [done| |done]. intros e He. by apply not_elem_of_nil in He.
    + destruct IH as [IH|(pre & table & post & -> & Hpre & Hmiss)].
      * left. intros e' [->|He']%elem_of_cons; auto.
      * right. exists (e :: pre), table, post.
        split_and!; [done| |done]. intros e' [->|He']%elem_of_cons; auto.
Qed.

Lemma expandStars_OK schema exprs :
  (∀ e, e ∈ exprs → ¬ missingStar schema e) →
  expandStars exprs schema = OK (concat (expandOne schema <$> exprs)).
Proof. intros H. unfold expandStars. by rewrite expandStarsLoop_OK. Qed.

Lemma expandStars_Err schema pre table post :
  (∀ e, e ∈ pre → ¬ missingStar schema e) →
  missingStar schema (Star table) →
  expandStars (pre ++ Star table :: post) schema = Err (ErrTableNotFound table).
Proof. intros. unfold expandStars. by apply expandStarsLoop_Err. Qed.

(** A list without star is left as it is. *)
Lemma expandOne_no_star schema (exprs : list Expression) :
  (∀ table, Star table ∉ exprs) →
  concat (expandOne schema <$> exprs) = exprs.
Proof.
  induction exprs as [|e rest IH]; intros Hno; [done|].
  change (expandOne schema e ++ concat (expandOne schema <$> rest) = e :: rest).
  rewrite IH by (intros t Ht; apply (Hno t); by right).
  destruct e; try done. exfalso. apply (Hno table). left.
Qed.

Lemma resolved_no_star (exprs : list Expression) :
  forallb expression.Resolved exprs = true → ∀ table, Star table ∉ exprs.
Proof.
  intros Hall table Hin. rewrite forallb_forall in Hall.
  apply list_elem_of_In, Hall in Hin. done.
Qed.

Lemma no_star_not_missing schema (exprs : list Expression) :
  (∀ table, Star table ∉ exprs) → ∀ e, e ∈ exprs → ¬ missingStar schema e.
Proof. intros Hno e He. destruct e; simpl; try tauto. by apply Hno in He. Qed.

(** The expansion leaves no star at the top of the list. *)
Lemma expandOne_star_free schema exprs table :
  Star table ∉ concat (expandOne schema <$> exprs).
Proof.
  intros Hin. apply list_elem_of_In, in_concat in Hin as (l & Hl & Hin).
  apply list_elem_of_In in Hl, Hin.
  apply list_elem_of_fmap in Hl as (e & -> & _).
  destruct e; simpl in Hin; try (apply list_elem_of_singleton in Hin; done).
  apply elem_of_starColumns in Hin as (? & ? & _ & _ & ?). done.
Qed.

End expandStars_results.

(** ** The star rule on a whole tree *)

Section resolveStar_facts.

Import analyzer.

Lemma bind_OK {A B} (a : A) (f : A → result B) : (OK a ≫= f) = f a.
Proof. done. Qed.

Lemma bind_Err {A B} (e : Error) (f : A → result B) : (Err e ≫= f) = Err e.
Proof. done. Qed.

Lemma bind_OK_inv {A B} (r : result A) (f : A → result B) (b : B) :
  (r ≫= f) = OK b → ∃ a, r = OK a ∧ f a = OK b.
Proof. destruct r as [a|e]; [eauto|done]. Qed.

Ltac split_resolved :=
  repeat match goal with
         | H : _ && _ = true |- _ => apply andb_true_iff in H as [? ?]
         end.

(** The node function returns a resolved node as it is. *)
Lemma resolveStarNode_resolved n :
  plan.Resolved n = true → resolveStarNode n = OK n.
Proof. intros H. unfold resolveStarNode. by rewrite H. Qed.

(** A pass over a resolved tree returns the tree. *)
Lemma resolveStar_resolved n :
  plan.Resolved n = true → resolveStar n = OK n.
Proof.
  unfold resolveStar.
  induction n; intros H; simpl;
    try (by apply resolveStarNode_resolved);
    pose proof H as H'; simpl in H'; try discriminate; split_resolved;
    repeat match goal with
           | IH : plan.Resolved ?c = true → _, Hc : plan.Resolved ?c = true |- _ =>
               rewrite (IH Hc); clear IH
           end;
    rewrite ?bind_OK; by apply resolveStarNode_resolved.
Qed.

(** The node function on a [Project] or [GroupBy] over a resolved child:
    the expressions are expanded against the schema of the child. *)
Lemma resolveStarNode_Project ps c :
  plan.Resolved c = true →
  resolveStarNode (Project ps c)
  = (es ← expandStars ps (plan.Schema c); OK (Project es c)).
Proof.
  intros Hc. unfold resolveStarNode. simpl. rewrite Hc. simpl.
  destruct (forallb expression.Resolved ps) eqn:Hps; [|done].
  rewrite expandStars_OK, expandOne_no_star; auto using resolved_no_star.
  apply no_star_not_missing. by apply resolved_no_star.
Qed.

Lemma resolveStarNode_GroupBy agg grp c :
  plan.Resolved c = true →
  resolveStarNode (GroupBy agg grp c)
  = (es ← expandStars agg (plan.Schema c); OK (GroupBy es grp c)).
Proof.
  intros Hc. unfold resolveStarNode. simpl. rewrite Hc. simpl.
  destruct (forallb expression.Resolved agg) eqn:Hps;
    [|by rewrite andb_false_l].
  rewrite expandStars_OK, expandOne_no_star; auto using resolved_no_star.
  - simpl. by destruct (forallb expression.Resolved grp).
  - apply no_star_not_missing. by apply resolved_no_star.
Qed.

(** The node function on a [Project] or [GroupBy] whose child is not
    resolved. *)
Lemma resolveStarNode_unresolved_child n :
  match n with
  | Project _ c | GroupBy _ _ c => plan.Resolved c = false
  | _ => True
  end →
  resolveStarNode n = OK n.
Proof.
  unfold resolveStarNode. destruct (plan.Resolved n); [done|].
  destruct n; try done; intros ->; done.
Qed.

(** A pass over a [Project] or [GroupBy]: the child is rewritten first. *)
Lemma resolveStar_Project ps c :
  resolveStar (Project ps c)
  = (c' ← resolveStar c; resolveStarNode (Project ps c')).
Proof. done. Qed.

Lemma resolveStar_GroupBy agg grp c :
  resolveStar (GroupBy agg grp c)
  = (c' ← resolveStar c; resolveStarNode (GroupBy agg grp c')).
Proof. done. Qed.

End resolveStar_facts.

(** ** Properties of star resolution *)

Section star_properties.

Import analyzer.

Lemma TransformUp_Children f n :
  plan.TransformUp f n
  = (cs ← mapM (plan.TransformUp f) (plan.Children n);
     f (plan.WithChildren n cs)).
Proof.
  destruct n; simpl; try done;
    repeat match goal with
           | |- context [plan.TransformUp f ?c] =>
               destruct (plan.TransformUp f c); simpl; try done
           end.
Qed.

(** C1.  Star expansion at a [Project] or [GroupBy] over a resolved child.
    When no star of the list names a table that is missing from the schema
    of the child, a pass of the rule returns the node with every star
    replaced, in place, by the [GetField]s of the columns the star selects
    and every other expression kept.  An unqualified star yields one
    [GetField] per column of the schema, in schema order, so exactly
    [length schema] of them; a star qualified by [a] yields the [GetField]s
    of the columns whose source table is [a] and no other, still in schema
    order. *)
Theorem star_expansion_complete (ps grp : list Expression) (c : Node) :
  plan.Resolved c = true →
  (∀ e, e ∈ ps → ¬ missingStar (plan.Schema c) e) →
  resolveStar (Project ps c)
    = OK (Project (concat (expandOne (plan.Schema c) <$> ps)) c)
  ∧ resolveStar (GroupBy ps grp c)
    = OK (GroupBy (concat (expandOne (plan.Schema c) <$> ps)) grp c)
  ∧ expandOne (plan.Schema c) (Star "")
    = imap NewGetFieldWithTable (plan.Schema c)
  ∧ length (expandOne (plan.Schema c) (Star "")) = length (plan.Schema c)
  ∧ (∀ k, expandOne (plan.Schema c) (Star "") !! k
          = NewGetFieldWithTable k <$> plan.Schema c !! k)
  ∧ ∀ a, a ≠ "" →
      (∀ e, e ∈ expandOne (plan.Schema c) (Star a) ↔
            ∃ i col, plan.Schema c !! i = Some col ∧ Source col = a
                     ∧ e = NewGetFieldWithTable i col)
      ∧ expandOne (plan.Schema c) (Star a)
          `sublist_of` imap NewGetFieldWithTable (plan.Schema c).
Proof.
  intros Hc Hok. split_and!.
  - rewrite resolveStar_Project, (resolveStar_resolved c Hc), bind_OK.
    rewrite resolveStarNode_Project by done. by rewrite expandStars_OK.
  - rewrite resolveStar_GroupBy, (resolveStar_resolved c Hc), bind_OK.
    rewrite resolveStarNode_GroupBy by done. by rewrite expandStars_OK.
  - apply starColumns_unqualified.
  - simpl. by rewrite starColumns_unqualified, length_imap.
  - intros k. simpl. by rewrite starColumns_unqualified, list_lookup_imap.
  - intros a Ha. split; [|apply starColumns_sublist].
    intros e. simpl. rewrite elem_of_starColumns. unfold starSelects.
    split; intros (i & col & Hcol & Hsel & ->); exists i, col.
    + destruct Hsel; done.
    + split_and!; [done|by right|done].
Qed.

(** The test query [SELECT * FROM mytable] of TestAnalyzer_Analyze, once
    the table is resolved. *)
Lemma star_expansion_complete_witness :
  resolveStar (Project [NewStar] (ResolvedTable fixtures.table))
  = OK (Project [GetField 0 Int32 "mytable" "i" false;
                 GetField 1 Text "mytable" "t" false]
                (ResolvedTable fixtures.table)).
Proof.
  refine (proj1 (star_expansion_complete [NewStar] []
                   (ResolvedTable fixtures.table) _ _)).
  - reflexivity.
  - intros e He. apply list_elem_of_singleton in He. subst e.
    simpl. intros [Hne _]. apply Hne. reflexivity.
Defined.

(** C8.  A star qualified by a table that no column of the schema comes
    from makes the expansion fail with [ErrTableNotFound].  The error names
    a qualifier of the list that has no column in the schema: the one of
    the first such star, hence the given one when no star before it is
    missing its table.  At a [Project] or [GroupBy] over a resolved child
    the pass of the rule fails with that error. *)
Theorem expandStars_table_not_found (ps : list Expression) (schema : Schema_t)
    (table : string) :
  Star table ∈ ps →
  table ≠ "" →
  (∀ col, col ∈ schema → Source col ≠ table) →
  (∃ missing,
     Star missing ∈ ps
     ∧ missing ≠ "" ∧ (∀ col, col ∈ schema → Source col ≠ missing)
     ∧ expandStars ps schema = Err (ErrTableNotFound missing)
     ∧ ∀ c grp, plan.Resolved c = true → plan.Schema c = schema →
         resolveStar (Project ps c) = Err (ErrTableNotFound missing)
         ∧ resolveStar (GroupBy ps grp c) = Err (ErrTableNotFound missing))
  ∧ ∀ pre post,
      ps = pre ++ Star table :: post →
      (∀ e, e ∈ pre → ¬ missingStar schema e) →
      expandStars ps schema = Err (ErrTableNotFound table).
Proof.
  intros Hin Hne Hno. split.
  - destruct (first_missingStar schema ps)
      as [Hok|(pre & missing & post & -> & Hpre & Hmiss)].
    { exfalso. by apply (Hok _ Hin). }
    exists missing. pose proof Hmiss as [Hm1 Hm2].
    pose proof (expandStars_Err schema pre missing post Hpre Hmiss) as Herr.
    split_and!; try done.
    + apply elem_of_app. right. left.
    + intros c grp Hc <-. split.
      * rewrite resolveStar_Project, (resolveStar_resolved c Hc), bind_OK.
        rewrite resolveStarNode_Project by done. by rewrite Herr.
      * rewrite resolveStar_GroupBy, (resolveStar_resolved c Hc), bind_OK.
        rewrite resolveStarNode_GroupBy by done. by rewrite Herr.
  - intros pre post -> Hpre. by apply expandStars_Err.
Qed.

(** [SELECT nope.* FROM mytable]: the error names [nope]. *)
Lemma expandStars_table_not_found_witness :
  expandStars [NewQualifiedStar "nope"] (plan.Schema (ResolvedTable fixtures.table))
  = Err (ErrTableNotFound "nope").
Proof.
  refine (proj2 (expandStars_table_not_found [NewQualifiedStar "nope"]
                   (plan.Schema (ResolvedTable fixtures.table)) "nope" _ _ _)
                [] [] _ _).
  - left.
  - discriminate.
  - intros col Hcol. vm_compute in Hcol.
    apply elem_of_cons in Hcol as [->|Hcol]; [discriminate|].
    apply list_elem_of_singleton in Hcol as ->. discriminate.
  - reflexivity.
  - intros e He. apply not_elem_of_nil in He. destruct He.
Defined.




(** C10.  The rule rewrites [Project] and [GroupBy] nodes only.  The node
    function returns a node of any other kind as it receives it, whatever
    expressions the node holds, so a pass over such a node only replaces its
    children by their own rewrites and keeps its kind and expressions.
    Whenever the node function returns something else than its argument,
    the argument is a [Project] or [GroupBy] over a resolved child and the
    result carries the expansion of its expressions against the schema of
    that child; whenever it fails, the error comes from that expansion. *)
Theorem resolveStar_only_Project_GroupBy :
  (∀ n, isProjectOrGroupBy n = false →
     resolveStarNode n = OK n
     ∧ resolveStar n
       = (cs ← mapM resolveStar (plan.Children n); OK (plan.WithChildren n cs))
     ∧ ∀ cs, isProjectOrGroupBy (plan.WithChildren n cs) = false
             ∧ plan.Expressions (plan.WithChildren n cs) = plan.Expressions n)
  ∧ (∀ n r, resolveStarNode n = r → r ≠ OK n →
       ∃ c, plan.Resolved c = true ∧
         ((∃ ps, n = Project ps c
                 ∧ r = (es ← expandStars ps (plan.Schema c); OK (Project es c)))
          ∨ (∃ agg grp, n = GroupBy agg grp c
                 ∧ r = (es ← expandStars agg (plan.Schema c);
                        OK (GroupBy es grp c))))).
Proof.
  split.
  - intros n Hkind. split_and!.
    + unfold resolveStarNode. destruct (plan.Resolved n); [done|].
      by destruct n.
    + unfold resolveStar. rewrite TransformUp_Children.
      destruct (mapM _ _) as [cs|e]; [|done]. rewrite !bind_OK.
      unfold resolveStarNode.
      destruct (plan.Resolved (plan.WithChildren n cs)); [done|].
      destruct n; try done; by destruct cs as [|? [|? [|? ?]]].
    + intros cs. destruct n; try done; by destruct cs as [|? [|? [|? ?]]].
  - intros n r <- Hne.
    destruct n; try (exfalso; apply Hne; unfold resolveStarNode;
                     by destruct (plan.Resolved _)).
    + destruct (plan.Resolved n) eqn:Hc.
      * exists n. split; [done|]. left. exists projections.
        split; [done|]. by apply resolveStarNode_Project.
      * exfalso. apply Hne. by apply resolveStarNode_unresolved_child.
    + destruct (plan.Resolved n) eqn:Hc.
      * exists n. split; [done|]. right. exists aggregate, grouping.
        split; [done|]. by apply resolveStarNode_GroupBy.
      * exfalso. apply Hne. by apply resolveStarNode_unresolved_child.
Qed.

(** A [Filter] that holds a star, over a star projection: the pass expands
    the projection beneath and leaves the filter and its star alone. *)
Lemma resolveStar_only_Project_GroupBy_witness :
  resolveStarNode (Filter NewStar (UnresolvedTable "mytable" ""))
  = OK (Filter NewStar (UnresolvedTable "mytable" "")).
Proof.
  exact (proj1 (proj1 resolveStar_only_Project_GroupBy
                  (Filter NewStar (UnresolvedTable "mytable" "")) eq_refl)).
Defined.

Example resolveStar_Filter_over_Project :
  resolveStar (Filter NewStar (Project [NewStar] (ResolvedTable fixtures.table)))
  = OK (Filter NewStar
          (Project [GetField 0 Int32 "mytable" "i" false;
                    GetField 1 Text "mytable" "t" false]
                   (ResolvedTable fixtures.table))).
Proof. reflexivity. Qed.

End star_properties.

(** ** A second pass of the star rule changes nothing *)

Section resolveStar_idempotent.

Import analyzer.

Lemma expandStars_OK_inv schema ps es :
  expandStars ps schema = OK es →
  es = concat (expandOne schema <$> ps)
  ∧ ∀ e, e ∈ ps → ¬ missingStar schema e.
Proof.
  intros H.
  destruct (first_missingStar schema ps)
    as [Hok|(pre & missing & post & -> & Hpre & Hmiss)].
  - rewrite expandStars_OK in H by done. by simplify_eq.
  - rewrite expandStars_Err in H by done. done.
Qed.

Lemma expandStars_expanded schema schema' ps es :
  expandStars ps schema = OK es → expandStars es schema' = OK es.
Proof.
  intros [-> _]%expandStars_OK_inv.
  rewrite expandStars_OK.
  - rewrite expandOne_no_star; [done|]. apply expandOne_star_free.
  - apply no_star_not_missing, expandOne_star_free.
Qed.

Lemma resolveStarNode_other n :
  isProjectOrGroupBy n = false → resolveStarNode n = OK n.
Proof.
  intros H. unfold resolveStarNode. destruct (plan.Resolved n); [done|].
  by destruct n.
Qed.

(** The node function is idempotent. *)
Lemma resolveStarNode_idempotent n n' :
  resolveStarNode n = OK n' → resolveStarNode n' = OK n'.
Proof.
  destruct (isProjectOrGroupBy n) eqn:Hkind.
  - destruct n; try done.
    + destruct (plan.Resolved n) eqn:Hc.
      * rewrite resolveStarNode_Project by done.
        intros (es & Hes & [= <-])%bind_OK_inv.
        rewrite resolveStarNode_Project by done.
        by rewrite (expandStars_expanded _ _ _ _ Hes).
      * rewrite resolveStarNode_unresolved_child by done. intros [= <-].
        by apply resolveStarNode_unresolved_child.
    + destruct (plan.Resolved n) eqn:Hc.
      * rewrite resolveStarNode_GroupBy by done.
        intros (es & Hes & [= <-])%bind_OK_inv.
        rewrite resolveStarNode_GroupBy by done.
        by rewrite (expandStars_expanded _ _ _ _ Hes).
      * rewrite resolveStarNode_unresolved_child by done. intros [= <-].
        by apply resolveStarNode_unresolved_child.
  - rewrite resolveStarNode_other by done. intros [= <-].
    by apply resolveStarNode_other.
Qed.

(** The result of a pass is a fixed point of the pass. *)
Lemma resolveStar_idempotent n : ∀ n',
  resolveStar n = OK n' → resolveStar n' = OK n'.
Proof.
  unfold resolveStar.
  induction n; intros n' H; simpl in H;
    repeat match type of H with
           | (plan.TransformUp resolveStarNode ?c ≫= _) = OK _ =>
               let c' := fresh "c'" in
               let Hc := fresh "Hc" in
               apply bind_OK_inv in H as (c' & Hc & H)
           end;
    repeat match goal with
           | IH : ∀ n', plan.TransformUp _ ?c = OK n' → _,
             Hc : plan.TransformUp _ ?c = OK _ |- _ =>
               apply IH in Hc; clear IH
           end.
  all: pose proof (resolveStarNode_idempotent _ _ H) as Hid.
  all: try (rewrite resolveStarNode_other in H by done; simplify_eq;
            simpl; by rewrite ?Hc, ?Hc0, ?bind_OK).
  - (* Project *)
    destruct (plan.Resolved c') eqn:Hres.
    + rewrite resolveStarNode_Project in H by done.
      apply bind_OK_inv in H as (es & Hes & [= <-]).
      simpl. by rewrite Hc, bind_OK.
    + rewrite resolveStarNode_unresolved_child in H by done. simplify_eq.
      simpl. by rewrite Hc, bind_OK.
  - (* GroupBy *)
    destruct (plan.Resolved c') eqn:Hres.
    + rewrite resolveStarNode_GroupBy in H by done.
      apply bind_OK_inv in H as (es & Hes & [= <-]).
      simpl. by rewrite Hc, bind_OK.
    + rewrite resolveStarNode_unresolved_child in H by done. simplify_eq.
      simpl. by rewrite Hc, bind_OK.
Qed.

End resolveStar_idempotent.

(** ** The rule engine *)

Section engine_facts.

Import engine.

Context {St : Type}.

Implicit Types (rules : list (Rule St)) (b : Batch St) (a : Analyzer St).
Implicit Types (ctx : Context) (n : Node) (s : St).

Lemma passes_S_last k rules ctx n s :
  passes (S k) rules ctx n s
  = match passes k rules ctx n s with
    | (OK n', s') => evalOnce rules ctx n' s'
    | (Err e, s') => (Err e, s')
    end.
Proof.
  revert n s. induction k as [|k IH]; intros n s.
  - simpl. by destruct (evalOnce rules ctx n s) as [[?|?] ?].
  - change (passes (S (S k)) rules ctx n s)
      with (match evalOnce rules ctx n s with
            | (OK n', s') => passes (S k) rules ctx n' s'
            | (Err e, s') => (Err e, s')
            end).
    destruct (evalOnce rules ctx n s) as [[n1|e] s1] eqn:H1.
    + rewrite IH. simpl. by rewrite H1.
    + simpl. by rewrite H1.
Qed.



Lemma neverFixed_S k rules ctx n s :
  neverFixed (S k) rules ctx n s →
  ∃ cur s', evalOnce rules ctx n s = (OK cur, s') ∧ cur ≠ n
            ∧ neverFixed k rules ctx cur s'.
Proof.
  intros H.
  destruct (H 0 ltac:(lia)) as (prev & s1 & cur & s2 & H0 & H1 & Hne).
  simpl in H0. simplify_eq. exists cur, s2. split_and!; [done..|].
  intros j Hj. destruct (H (S j) ltac:(lia)) as (p & t1 & c & t2 & Hp & Hc & Hd).
  simpl in Hp. rewrite H1 in Hp. eauto 10.
Qed.

(** A batch that never reaches a fixed point makes all its passes and
    returns the tree of the last one. *)
Lemma evalIter_neverFixed k rules ctx : ∀ n s,
  neverFixed k rules ctx n s →
  ∃ last s', passes k rules ctx n s = (OK last, s')
             ∧ evalIter k rules ctx n s = mkRun (OK last) s' k.
Proof.
  induction k as [|k IH]; intros n s H; simpl.
  - eauto.
  - apply neverFixed_S in H as (cur & s' & Hcur & Hne & Hrest).
    rewrite Hcur. rewrite bool_decide_eq_false_2 by done.
    destruct (IH cur s' Hrest) as (last & s'' & Hp & He).
    exists last, s''. by rewrite Hp, He.
Qed.

(** C4.  A batch that uses up its passes without reaching a fixed point is
    not an error: [Eval] returns the tree of the last pass, having made
    exactly as many passes as the ceiling allows; [Analyze] of that batch
    alone returns this tree without error, and with more batches after it
    the analysis goes on from this tree. *)
Theorem ceiling_is_not_an_error b ctx n s :
  neverFixed (Iterations b) (Rules b) ctx n s →
  ∃ last s',
    passes (Iterations b) (Rules b) ctx n s = (OK last, s')
    ∧ Eval b ctx n s = mkRun (OK last) s' (Iterations b)
    ∧ Analyze (mkAnalyzer [b]) ctx n s = mkRun (OK last) s' (Iterations b)
    ∧ ∀ rest,
        analyzeBatches (b :: rest) ctx n s
        = mkRun (run_result (analyzeBatches rest ctx last s'))
                (run_state (analyzeBatches rest ctx last s'))
                (Iterations b + run_passes (analyzeBatches rest ctx last s')).
Proof.
  intros H. apply evalIter_neverFixed in H as (last & s' & Hp & He).
  exists last, s'. split_and!; [done|done| |].
  - unfold Analyze. simpl. unfold Eval. rewrite He. simpl.
    by rewrite Nat.add_0_r.
  - intros rest. simpl. unfold Eval. by rewrite He.
Qed.


End engine_facts.

(** ** Rules on resolved trees *)

Section resolved_trees.

(** A node function that returns resolved nodes as they are makes the
    bottom-up walk return a resolved tree as it is. *)
Lemma TransformUp_resolved (f : Node → result Node) :
  (∀ n, plan.Resolved n = true → f n = OK n) →
  ∀ n, plan.Resolved n = true → plan.TransformUp f n = OK n.
Proof.
  intros Hf.
  induction n; intros H; simpl;
    try (by apply Hf);
    pose proof H as H'; simpl in H'; try discriminate;
    repeat match goal with
           | H : _ && _ = true |- _ => apply andb_true_iff in H as [? ?]
           end;
    repeat match goal with
           | IH : plan.Resolved ?c = true → _, Hc : plan.Resolved ?c = true |- _ =>
               rewrite (IH Hc); clear IH
           end;
    rewrite ?bind_OK; by apply Hf.
Qed.

Lemma resolveTables_resolved catalog ctx n :
  plan.Resolved n = true → rules.resolveTables catalog ctx n = OK n.
Proof.
  apply TransformUp_resolved. intros m Hm. by destruct m.
Qed.

Lemma resolveColumns_resolved n :
  plan.Resolved n = true → rules.resolveColumns n = OK n.
Proof.
  apply TransformUp_resolved. intros m Hm.
  unfold rules.resolveColumnsNode. by rewrite Hm.
Qed.

Lemma resolveNaturalJoins_resolved n :
  plan.Resolved n = true → rules.resolveNaturalJoins n = OK n.
Proof.
  apply TransformUp_resolved. intros m Hm.
  unfold rules.resolveNaturalJoinsNode. by rewrite Hm.
Qed.

End resolved_trees.

(** ** Natural-join expansion *)

Section natural_joins.

Import rules.

Implicit Types (ls rs schema : Schema_t) (col lcol rcol : Column).






Lemma rightPartner_None ls rs lcol :
  rightPartner (length ls) rs lcol = None ↔
  ∀ rcol, rcol ∈ rs → Name rcol ≠ Name lcol.
Proof.
  unfold rightPartner. rewrite fmap_None, list_find_None, Forall_forall. done.
Qed.












Lemma noFields_fieldsMatch schema e :
  noFields e = true → fieldsMatch schema e = true.
Proof.
  induction e; simpl; try done.
  - intros [??]%andb_true_iff. rewrite IHe1, IHe2; done.
  - intros [??]%andb_true_iff. rewrite IHe1, IHe2; done.
Qed.

Lemma noFields_forallb_fieldsMatch schema es :
  forallb noFields es = true → forallb (fieldsMatch schema) es = true.
Proof.
  rewrite !forallb_forall. intros H e He. by apply noFields_fieldsMatch, H.
Qed.









(** The expansion of that join, and the plan the test expects at the end
    of the analysis: both have every field reference in place. *)
Example naturalJoin_test_expansion :
  resolveNaturalJoins join_fixtures.resolvedSides
  = OK (Project
          [GetField 0 Int32 "mytable" "i" false;
           GetField 4 Float64 "mytable2" "f2" false;
           GetField 1 Float64 "mytable" "f" false;
           GetField 2 Text "mytable" "t" false;
           GetField 3 Int32 "mytable2" "i2" false;
           GetField 5 Text "mytable2" "t2" false;
           GetField 8 Text "mytable3" "t3" false]
          (InnerJoin
             (InnerJoin (ResolvedTable join_fixtures.table)
                (ResolvedTable join_fixtures.table2)
                (Equals (GetField 0 Int32 "mytable" "i" false)
                        (GetField 3 Int32 "mytable2" "i2" false)))
             (ResolvedTable join_fixtures.table3)
             (And (Equals (GetField 0 Int32 "mytable" "i" false)
                          (GetField 6 Int32 "mytable3" "i" false))
                  (Equals (GetField 4 Float64 "mytable2" "f2" false)
                          (GetField 7 Float64 "mytable3" "f2" false))))).
Proof. reflexivity. Qed.

Example naturalJoin_test_expected_WellIndexed :
  WellIndexed join_fixtures.expected = true.
Proof. reflexivity. Qed.

(** The plan the test submits, analyzed by the default analyzer: the
    result is resolved, has every field reference in place, and has the
    schema of the plan the test expects. *)
Example naturalJoin_test_analysis :
  ∃ n, engine.run_result
         (engine.Analyze (builder.NewDefault join_fixtures.catalog)
            (engine.mkContext "mydb") join_fixtures.node tt) = OK n
       ∧ plan.Resolved n = true
       ∧ WellIndexed n = true
       ∧ plan.Schema n = plan.Schema join_fixtures.expected.
Proof. eexists. split_and!; reflexivity. Qed.

End natural_joins.

(** ** TestMaxIterations *)

Section max_iterations.

Import engine builder test_fixtures.

(** The analysis of the test: no error, the table renamed a thousand
    times, and the rule called a thousand times. *)
Example TestMaxIterations :
  let r := Analyze loopAnalyzer (mkContext "mydb") (UnresolvedTable tName "") 0 in
  run_result r = OK (ResolvedTable (loopTable "mytable-1000"))
  ∧ run_state r = 1000.
Proof. vm_compute. done. Qed.

(** Two passes of a batch of ceiling 2 that holds the rule of the test. *)
Lemma ceiling_is_not_an_error_witness :
  ∃ last s',
    passes 2 [mkRule "loop" loopRule] ctx (ResolvedTable (loopTable tName)) 0
      = (OK last, s')
    ∧ Eval (mkBatch "after-all" 2 [mkRule "loop" loopRule]) ctx
           (ResolvedTable (loopTable tName)) 0
      = mkRun (OK last) s' 2.
Proof.
  destruct (ceiling_is_not_an_error
              (mkBatch "after-all" 2 [mkRule "loop" loopRule]) ctx
              (ResolvedTable (loopTable tName)) 0) as (last & s' & H1 & H2 & _).
  - intros j Hj. destruct j as [|[|j]]; [| |simpl in Hj; lia].
    + do 4 eexists. split_and!; [reflexivity|reflexivity|discriminate].
    + do 4 eexists. split_and!; [reflexivity|reflexivity|discriminate].
  - exists last, s'. split; assumption.
Defined.

End max_iterations.

(** ** Errors of table and column resolution *)

Section not_found.

Import engine builder.

Context {St : Type}.

Implicit Types (catalog : Catalog) (ctx : Context) (n : Node) (s : St).









End not_found.

Section not_found_tests.

Import engine builder test_fixtures.


Example analyze_column_o_not_found :
  run_result (Analyze (NewDefault catalog) ctx
                (Project [NewUnresolvedColumn "o"] (UnresolvedTable "mytable" ""))
                tt)
  = Err (ErrColumnNotFound "o").
Proof. reflexivity. Qed.

End not_found_tests.

(** ** Pushdown *)

Section pushdown_facts.

Import exec pushdown.

Implicit Types (row : Row) (e f cond : Expression) (t : Table) (n : Node).

Lemma holds_And l r row : holds (And l r) row ↔ holds l row ∧ holds r row.
Proof.
  unfold holds. simpl.
  destruct (Evaluate l row) as [|[]| |], (Evaluate r row) as [|[]| |];
    intuition discriminate.
Qed.

(** A row passes a predicate iff it passes each of its conjuncts. *)
Lemma holds_splitConjunction e row :
  holds e row ↔ Forall (λ f, holds f row) (splitConjunction e).
Proof.
  induction e; simpl; try (by rewrite Forall_singleton).
  by rewrite holds_And, Forall_app, IHe1, IHe2.
Qed.

Lemma holds_foldl_And es : ∀ e row,
  holds (foldl And e es) row ↔ holds e row ∧ Forall (λ f, holds f row) es.
Proof.
  induction es as [|x es IH]; intros e row; simpl.
  - rewrite Forall_nil. tauto.
  - rewrite IH, holds_And, Forall_cons. tauto.
Qed.

Lemma holds_JoinAnd es row :
  holds (rules.JoinAnd es) row ↔ Forall (λ f, holds f row) es.
Proof.
  destruct es as [|e es]; simpl.
  - rewrite Forall_nil. done.
  - by rewrite holds_foldl_And, Forall_cons.
Qed.

Lemma Forall_filter_split {A} (P Q : A → Prop) `{!∀ x, Decision (Q x)}
    (l : list A) :
  Forall P l ↔ Forall P (filter Q l) ∧ Forall P (filter (λ x, ¬ Q x) l).
Proof.
  rewrite !Forall_forall. split.
  - intros Hall. split; intros x [_ Hx]%list_elem_of_filter; auto.
  - intros [H1 H2] x Hx. destruct (decide (Q x)).
    + apply H1, list_elem_of_filter. done.
    + apply H2, list_elem_of_filter. done.
Qed.

Lemma TableRows_unprojected t :
  table_projection t = [] →
  TableRows t
  = filter (λ row, Forall (λ f, holds f row) (table_filters t)) (table_rows t).
Proof. intros H. unfold TableRows. by rewrite H. Qed.

Lemma TableSchema_unprojected t :
  table_projection t = [] → plan.TableSchema t = table_schema t.
Proof. intros H. unfold plan.TableSchema. by rewrite H. Qed.

(** Pushing the filter of a [Filter] into the table below keeps the schema
    and the rows. *)
Lemma pushdownNode_Filter_sound cond t n' :
  pushdownNode (Filter cond (ResolvedTable t)) = OK n' →
  plan.Schema n' = plan.TableSchema t
  ∧ RowIter n' = Some (filter (holds cond) (TableRows t)).
Proof.
  unfold pushdownNode.
  destruct (table_pushdown t && bool_decide (table_projection t = [])
            && bool_decide (table_filters t = [])) eqn:Hguard;
    [|by intros [= <-]].
  apply andb_true_iff in Hguard as [[_ Hproj]%andb_true_iff Hfil].
  apply bool_decide_eq_true in Hproj, Hfil.
  set (pushed := filter (λ e, onlyTable (table_name t) e = true)
                        (splitConjunction cond)).
  set (kept := filter (λ e, onlyTable (table_name t) e ≠ true)
                      (splitConjunction cond)).
  assert (∀ row, holds cond row ↔
                 Forall (λ f, holds f row) pushed
                 ∧ Forall (λ f, holds f row) kept) as Hsplit.
  { intros row. rewrite holds_splitConjunction.
    apply (Forall_filter_split _ (λ e, onlyTable (table_name t) e = true)). }
  assert (TableRows t = table_rows t) as Hrows.
  { rewrite TableRows_unprojected, Hfil by done.
    apply filter_Forall_id, Forall_forall. intros row _. constructor. }
  assert (TableRows (memory.WithFilters t pushed)
          = filter (λ row, Forall (λ f, holds f row) pushed) (table_rows t))
    as Hrows' by by rewrite TableRows_unprojected.
  destruct pushed as [|p pushed'] eqn:Hpushed; [by intros [= <-]|].
  rewrite <- Hpushed in *. clear Hpushed.
  destruct kept as [|k kept'] eqn:Hkept; intros [= <-]; simpl.
  - split; [by rewrite !TableSchema_unprojected|].
    rewrite Hrows, Hrows'. f_equal. apply list_filter_iff. intros row.
    rewrite Hsplit, Forall_nil. tauto.
  - split; [by rewrite !TableSchema_unprojected|].
    rewrite Hrows, Hrows', list_filter_filter. f_equal.
    apply list_filter_iff. intros row.
    rewrite Hsplit. fold (rules.JoinAnd (k :: kept')).
    rewrite holds_JoinAnd. tauto.
Qed.

(** A table-only subtree has the schema and the rows of its table, and
    those of the table put in its place. *)
Lemma tableOf_Some n t :
  tableOf n = Some t →
  plan.Schema n = plan.TableSchema t ∧ RowIter n = Some (TableRows t).
Proof. induction n; simpl; try done. by intros [= ->]. Qed.

Lemma replaceTable_Some n t new :
  tableOf n = Some t →
  plan.Schema (replaceTable n new) = plan.Schema new
  ∧ RowIter (replaceTable n new) = RowIter new.
Proof. induction n; simpl; try done. Qed.

(** With distinct column names, the column found by name is the column at
    the position a field reference records. *)
Lemma list_find_Name_unique (schema : Schema_t) i col :
  NoDup (Name <$> schema) →
  schema !! i = Some col →
  list_find (λ c, Name c = Name col) schema = Some (i, col).
Proof.
  intros Hnd Hi. apply list_find_Some. split_and!; [done..|].
  intros j y Hj Hlt Hname.
  assert (j = i); [|lia].
  eapply (NoDup_lookup (Name <$> schema) j i (Name col)); [done|..].
  - by rewrite list_lookup_fmap, Hj, <- Hname.
  - by rewrite list_lookup_fmap, Hi.
Qed.

(** A list of bare columns, in place in a schema of distinct names, reads
    the same columns by position as the table narrowed to their names
    serves by name. *)
Lemma bare_columns_aligned (schema : Schema_t) ps names :
  NoDup (Name <$> schema) →
  mapM fieldName ps = Some names →
  forallb (fieldsMatch schema) ps = true →
  omap (λ nm, snd <$> list_find (λ col, Name col = nm) schema) names
    = plan.exprColumn <$> ps
  ∧ ∀ row, projectRow schema names row = (λ e, Evaluate e row) <$> ps.
Proof.
  intros Hnd Hnames%mapM_Some. revert Hnames.
  induction 1 as [|e name ps names He Hrest IH]; intros Hall; [done|].
  simpl in Hall. apply andb_true_iff in Hall as [Hmatch Hall].
  destruct (IH Hall) as [IH1 IH2].
  destruct e; simpl in He; try done. injection He as ->.
  simpl in Hmatch. apply bool_decide_eq_true in Hmatch.
  pose proof (list_find_Name_unique schema index _ Hnd Hmatch) as Hfind.
  simpl in Hfind. split.
  - simpl. rewrite Hfind. simpl. f_equal. exact IH1.
  - intros row. unfold projectRow in *. simpl. rewrite Hfind. simpl.
    f_equal. exact (IH2 row).
Qed.

(** Replacing a [Project] of bare columns by the narrowed table keeps the
    schema and the rows. *)
Lemma pushdownNode_Project_sound ps c n' :
  (∀ t, tableOf c = Some t → NoDup (Name <$> table_schema t)) →
  forallb (fieldsMatch (plan.Schema c)) ps = true →
  pushdownNode (Project ps c) = OK n' →
  plan.Schema n' = plan.Schema (Project ps c)
  ∧ RowIter n' = RowIter (Project ps c).
Proof.
  intros Hnd Hall. unfold pushdownNode.
  destruct (tableOf c) as [t|] eqn:Ht; [|by intros [= <-]].
  destruct (mapM fieldName ps) as [[|name names]|] eqn:Hnames;
    try by intros [= <-].
  destruct (table_pushdown t && bool_decide (table_projection t = []))
    eqn:Hguard; [|by intros [= <-]].
  apply andb_true_iff in Hguard as [_ Hproj].
  apply bool_decide_eq_true in Hproj.
  intros [= <-].
  destruct (tableOf_Some c t Ht) as [Hschema Hrows].
  rewrite Hschema, TableSchema_unprojected in Hall by done.
  destruct (bare_columns_aligned _ _ _ (Hnd t eq_refl) Hnames Hall)
    as [Hcols Hvals].
  rewrite (proj1 (replaceTable_Some c t _ Ht)),
    (proj2 (replaceTable_Some c t _ Ht)).
  split.
  - simpl. unfold plan.TableSchema. simpl. exact Hcols.
  - simpl. rewrite Hrows. f_equal.
    unfold TableRows at 1. simpl table_projection.
    rewrite TableRows_unprojected by done. simpl.
    apply list_fmap_ext. intros _ row _. apply Hvals.
Qed.

Lemma TablesDistinct_tableOf n t :
  TablesDistinct n → tableOf n = Some t → NoDup (Name <$> table_schema t).
Proof. induction n; simpl; try done. by intros ? [= <-]. Qed.

Lemma TablesDistinct_replaceTable n t new :
  tableOf n = Some t → TablesDistinct new → TablesDistinct (replaceTable n new).
Proof. induction n; simpl; try done; auto. Qed.

Lemma pushdownNode_other n :
  match n with Project _ _ | Filter _ _ => False | _ => True end →
  pushdownNode n = OK n.
Proof. by destruct n. Qed.

(** The node function keeps the schema and the rows of the node. *)
Lemma pushdownNode_sound n n' :
  TablesDistinct n →
  match n with
  | Project ps c => forallb (fieldsMatch (plan.Schema c)) ps = true
  | _ => True
  end →
  pushdownNode n = OK n' →
  plan.Schema n' = plan.Schema n ∧ RowIter n' = RowIter n ∧ TablesDistinct n'.
Proof.
  intros Htd Hwi Hpush.
  destruct n; try (rewrite pushdownNode_other in Hpush by done;
                   injection Hpush as <-; done); simpl in Htd.
  - (* Project *)
    destruct (pushdownNode_Project_sound projections n n') as [HS HR];
      [intros t Ht; by apply (TablesDistinct_tableOf n t)|done|done|].
    split_and!; [done|done|]. revert Hpush. unfold pushdownNode.
    destruct (tableOf n) as [t|] eqn:Ht; [|by intros [= <-]].
    destruct (mapM fieldName projections) as [[|name names]|];
      try by intros [= <-].
    destruct (_ && _); intros [= <-]; [|done].
    apply (TablesDistinct_replaceTable n t); [done|]. simpl.
    by apply (TablesDistinct_tableOf n t).
  - (* Filter *)
    destruct n; try (injection Hpush as <-; done).
    destruct (pushdownNode_Filter_sound cond t n' Hpush) as [HS HR].
    split_and!; [done|done|]. revert Hpush. unfold pushdownNode. cbv zeta.
    destruct (_ && _); [|by intros [= <-]].
    destruct (filter _ (splitConjunction cond)); [by intros [= <-]|].
    destruct (filter _ (splitConjunction cond)); by intros [= <-].
Qed.

(** A pass of pushdown over a whole tree never fails and keeps the schema
    and the rows of the tree. *)
Lemma pushdownNode_total n : ∃ n', pushdownNode n = OK n'.
Proof.
  destruct n; simpl; eauto.
  - destruct (tableOf n), (mapM fieldName projections) as [[|??]|]; eauto.
    destruct (_ && _); eauto.
  - destruct n; eauto. destruct (_ && _); eauto.
    destruct (filter _ _); eauto. destruct (filter _ _); eauto.
Qed.

Lemma pushdown_sound n :
  TablesDistinct n → WellIndexed n = true →
  ∃ n', pushdown n = OK n'
        ∧ plan.Schema n' = plan.Schema n ∧ RowIter n' = RowIter n
        ∧ TablesDistinct n'.
Proof.
  unfold pushdown.
  induction n; intros Htd Hwi; simpl in Htd, Hwi;
    repeat match goal with
           | H : _ && _ = true |- _ => apply andb_true_iff in H as [? ?]
           | H : _ ∧ _ |- _ => destruct H as [? ?]
           end;
    repeat match goal with
           | IH : TablesDistinct ?c → WellIndexed ?c = true → _,
             H1 : TablesDistinct ?c, H2 : WellIndexed ?c = true |- _ =>
               let c' := fresh "c'" in
               let Hp := fresh "Hp" in
               let HS := fresh "HS" in
               let HR := fresh "HR" in
               let HT := fresh "HT" in
               destruct (IH H1 H2) as (c' & Hp & HS & HR & HT); clear IH
           end;
    cbn [plan.TransformUp]; rewrite ?Hp, ?Hp0, ?bind_OK;
    match goal with
    | |- ∃ n', pushdownNode ?m = OK n' ∧ _ =>
        destruct (pushdownNode_total m) as [m' Hm];
        destruct (pushdownNode_sound m m') as (HS' & HR' & HT');
        [simpl; by eauto
        |simpl; rewrite ?HS; by eauto
        |done
        |exists m'; rewrite HS', HR'; simpl;
         rewrite ?HS, ?HS0, ?HR, ?HR0; by eauto]
    end.
Qed.

Lemma splitConjunction_not_nil e : splitConjunction e ≠ [].
Proof.
  induction e; simpl; try done.
  destruct (splitConjunction e1); [done|]. done.
Qed.

Lemma filter_Forall_not_nil {A} (P : A → Prop) `{!∀ x, Decision (P x)}
    (l : list A) :
  Forall P l → filter (λ x, ¬ P x) l = [].
Proof.
  induction 1 as [|x l Hx _ IH]; [done|].
  by rewrite filter_cons_False by tauto.
Qed.

(** The plan of the claim when all of it can be pushed: the projection is
    a list of bare columns and every conjunct of the filter references the
    table only. *)
Lemma pushdown_Project_Filter_Table ps cond t names :
  table_pushdown t = true →
  table_projection t = [] →
  table_filters t = [] →
  Forall (λ e, onlyTable (table_name t) e = true) (splitConjunction cond) →
  mapM fieldName ps = Some names →
  names ≠ [] →
  pushdown (Project ps (Filter cond (ResolvedTable t)))
  = OK (DecoratedNode
          (describe "Filtered" (expression.String <$> splitConjunction cond))
          (DecoratedNode (describe "Projected" names)
             (ResolvedTable
                (memory.WithProjection
                   (memory.WithFilters t (splitConjunction cond)) names)))).
Proof.
  intros Hcap Hproj Hfil Hall Hnames Hne.
  unfold pushdown. cbn [plan.TransformUp].
  change (pushdownNode (ResolvedTable t)) with (OK (ResolvedTable t)).
  rewrite bind_OK.
  assert (pushdownNode (Filter cond (ResolvedTable t))
          = OK (DecoratedNode
                  (describe "Filtered" (expression.String <$> splitConjunction cond))
                  (ResolvedTable (memory.WithFilters t (splitConjunction cond)))))
    as ->.
  { unfold pushdownNode. rewrite Hcap, Hproj, Hfil. simpl.
    rewrite (filter_Forall_id _ _ Hall).
    rewrite (filter_Forall_not_nil _ _ Hall).
    pose proof (splitConjunction_not_nil cond).
    by destruct (splitConjunction cond). }
  rewrite bind_OK. unfold pushdownNode. simpl tableOf. rewrite Hnames.
  destruct names as [|name names]; [done|].
  simpl table_pushdown. simpl table_projection. rewrite Hcap, Hproj. done.
Qed.

(** C3.  Pushdown, as the spec describes it, keeps the schema and the rows.
    A pass of the rule over any tree whose field references are in place
    and whose tables have columns of distinct names never fails and returns
    a tree with the same schema and the same rows.  For the plan
    [Project(Filter(Table))] over a table with pushdown capability, with a
    projection of bare columns and a filter on the table only, the result
    is the table narrowed by the filter and the projection under its two
    descriptions; its schema is the schema of the projection, and its rows
    are the rows of the table that pass the filter, each read at the
    projected columns. *)
Theorem pushdown_preserves_schema_and_rows :
  (∀ n, TablesDistinct n → WellIndexed n = true →
     ∃ n', pushdown n = OK n'
           ∧ plan.Schema n' = plan.Schema n ∧ RowIter n' = RowIter n)
  ∧ (∀ ps cond t names,
       table_pushdown t = true →
       table_projection t = [] →
       table_filters t = [] →
       NoDup (Name <$> table_schema t) →
       WellIndexed (Project ps (Filter cond (ResolvedTable t))) = true →
       Forall (λ e, onlyTable (table_name t) e = true) (splitConjunction cond) →
       mapM fieldName ps = Some names →
       names ≠ [] →
       ∃ narrowed,
         narrowed = memory.WithProjection
                      (memory.WithFilters t (splitConjunction cond)) names
         ∧ pushdown (Project ps (Filter cond (ResolvedTable t)))
           = OK (DecoratedNode
                   (describe "Filtered"
                      (expression.String <$> splitConjunction cond))
                   (DecoratedNode (describe "Projected" names)
                      (ResolvedTable narrowed)))
         ∧ plan.TableSchema narrowed = plan.exprColumn <$> ps
         ∧ TableRows narrowed
           = (λ row, (λ e, Evaluate e row) <$> ps)
               <$> filter (holds cond) (table_rows t)).
Proof.
  split.
  - intros n Htd Hwi.
    destruct (pushdown_sound n Htd Hwi) as (n' & Hp & HS & HR & _). eauto.
  - intros ps cond t names Hcap Hproj Hfil Hnd Hwi Hall Hnames Hne.
    eexists. split; [reflexivity|].
    pose proof (pushdown_Project_Filter_Table ps cond t names
                  Hcap Hproj Hfil Hall Hnames Hne) as Hp.
    destruct (pushdown_sound (Project ps (Filter cond (ResolvedTable t))))
      as (n' & Hp' & HS & HR & _); [done|done|].
    rewrite Hp in Hp'. injection Hp' as <-.
    split_and!; [done|exact HS|].
    simpl in HR. injection HR as ->. f_equal. f_equal.
    rewrite TableRows_unprojected, Hfil by done.
    apply filter_Forall_id, Forall_forall. intros row _. constructor.
Qed.

End pushdown_facts.

Section pushdown_tests.

Import exec pushdown test_fixtures.

(** [SELECT i FROM mytable WHERE i = 1] over three rows: the pushed-down
    plan has the schema and the rows of the plan it replaces. *)
Lemma pushdown_preserves_schema_and_rows_witness :
  ∃ n', pushdown selectWhere = OK n'
        ∧ plan.Schema n' = plan.Schema selectWhere
        ∧ RowIter n' = RowIter selectWhere.
Proof.
  refine (proj1 pushdown_preserves_schema_and_rows selectWhere _ _).
  - simpl. apply (bool_decide_unpack _). reflexivity.
  - reflexivity.
Defined.

Example pushdown_selectWhere :
  pushdown selectWhere
  = OK (DecoratedNode "Filtered table access on [mytable.i = 1]"
          (DecoratedNode "Projected table access on [i]"
             (ResolvedTable
                (memory.WithProjection
                   (memory.WithFilters tableWithRows
                      [Equals (GetField 0 Int32 "mytable" "i" false)
                              (Literal (VInt 1) Int32)])
                   ["i"]))))
  ∧ RowIter selectWhere = Some [[VInt 1]; [VInt 1]]
  ∧ (n' ← (match pushdown selectWhere with OK n' => Some n' | Err _ => None end);
     RowIter n') = Some [[VInt 1]; [VInt 1]].
Proof. split_and!; reflexivity. Qed.

End pushdown_tests.

(** ** Rules that have nothing left to do *)

Section idempotence.

Import pushdown.

(** A node that the node function returns as it is, over children that
    the walk returns as they are, is returned as it is by the walk. *)
Lemma TransformUp_fixed (f : Node → result Node) n :
  (∀ c, c ∈ plan.Children n → plan.TransformUp f c = OK c) →
  f n = OK n →
  plan.TransformUp f n = OK n.
Proof.
  intros Hc Hn.
  destruct n; simpl in *; try done;
    rewrite ?Hc by (repeat constructor); by rewrite ?bind_OK.
Qed.

Lemma pushdown_replaceTable n t new :
  tableOf n = Some t →
  pushdown new = OK new →
  pushdown (replaceTable n new) = OK (replaceTable n new).
Proof.
  intros Ht Hnew. unfold pushdown in *.
  induction n; simpl in *; try done.
  by rewrite IHn.
Qed.

(** What the node function returns over fixed children is fixed. *)
Lemma pushdownNode_fixed n n' :
  (∀ c, c ∈ plan.Children n → pushdown c = OK c) →
  pushdownNode n = OK n' →
  pushdown n' = OK n'.
Proof.
  intros Hc Hpush.
  assert (pushdownNode n = OK n → pushdown n = OK n) as Hsame
    by (intros; by apply TransformUp_fixed).
  destruct n; try (rewrite pushdownNode_other in Hpush by done;
                   injection Hpush as <-; by apply Hsame).
  - (* Project *)
    revert Hpush Hsame. unfold pushdownNode.
    destruct (tableOf n) as [t|] eqn:Ht; [|intros [= <-]; by auto].
    destruct (mapM fieldName projections) as [[|name names]|];
      try (intros [= <-]; by auto).
    destruct (_ && _); intros [= <-]; [|by auto]. intros _.
    by apply (pushdown_replaceTable n t).
  - (* Filter *)
    destruct n; try (injection Hpush as <-; by apply Hsame).
    revert Hpush Hsame. unfold pushdownNode. cbv zeta.
    destruct (_ && _); [|intros [= <-]; by auto].
    destruct (filter _ (splitConjunction cond)); [intros [= <-]; by auto|].
    destruct (filter _ (splitConjunction cond)); by intros [= <-].
Qed.

(** A second pass of pushdown changes nothing. *)
Lemma pushdown_idempotent n : ∀ n', pushdown n = OK n' → pushdown n' = OK n'.
Proof.
  unfold pushdown.
  induction n; intros n' H; cbn [plan.TransformUp] in H;
    repeat match type of H with
           | (plan.TransformUp pushdownNode ?c ≫= _) = OK _ =>
               let c' := fresh "c'" in
               let Hc := fresh "Hc" in
               apply bind_OK_inv in H as (c' & Hc & H)
           end;
    repeat match goal with
           | IH : ∀ n', plan.TransformUp _ ?c = OK n' → _,
             Hc : plan.TransformUp _ ?c = OK _ |- _ =>
               apply IH in Hc; clear IH
           end;
    (eapply pushdownNode_fixed; [|exact H]);
    simpl; intros c Hin;
    repeat (apply elem_of_cons in Hin as [->|Hin]; [done|]);
    by apply not_elem_of_nil in Hin.
Qed.

(** C6 does not hold of the pushdown rule: pushdown is what rewrites a
    resolved tree.  [SELECT i FROM mytable], resolved, is replaced by the
    narrowed table under its description. *)
Lemma rules_are_idempotent_counterexample :
  ¬ (∀ n, plan.Resolved n = true → pushdown n = OK n).
Proof.
  intros H.
  specialize (H (Project [GetField 0 Int32 "mytable" "i" false]
                   (ResolvedTable fixtures.table)) eq_refl).
  vm_compute in H. discriminate H.
Qed.

(** C6, amended.  A rule is a no-op where it has nothing to improve.  On a
    tree that is resolved, a pass of the star rule returns the tree itself,
    and so does a pass of each resolution rule modelled from the spec:
    table resolution, column resolution, natural-join expansion.  Repeating
    a pass changes nothing: what a pass of the star rule returns, on any
    tree, is returned as it is by a second pass, and likewise for the
    pushdown rule, which leaves a tree that is already pushed down as it
    is. *)
Theorem rules_are_idempotent :
  (∀ n, plan.Resolved n = true →
     analyzer.resolveStar n = OK n
     ∧ (∀ catalog ctx, rules.resolveTables catalog ctx n = OK n)
     ∧ rules.resolveColumns n = OK n
     ∧ rules.resolveNaturalJoins n = OK n)
  ∧ (∀ n n', analyzer.resolveStar n = OK n' → analyzer.resolveStar n' = OK n')
  ∧ (∀ n n', pushdown n = OK n' → pushdown n' = OK n').
Proof.
  split_and!.
  - intros n Hn. split_and!.
    + by apply resolveStar_resolved.
    + intros. by apply resolveTables_resolved.
    + by apply resolveColumns_resolved.
    + by apply resolveNaturalJoins_resolved.
  - apply resolveStar_idempotent.
  - apply pushdown_idempotent.
Qed.

(** The resolved table of TestAnalyzer_Analyze. *)
Lemma rules_are_idempotent_witness :
  analyzer.resolveStar (ResolvedTable fixtures.table)
  = OK (ResolvedTable fixtures.table).
Proof.
  exact (proj1 (proj1 rules_are_idempotent (ResolvedTable fixtures.table)
                  eq_refl)).
Defined.

End idempotence.

(** ** The scenarios of TestAnalyzer_Analyze *)

Section analyzer_tests.

Import engine builder test_fixtures.

Example analyze_unresolved_table :
  analyze (UnresolvedTable "mytable" "") = OK (ResolvedTable fixtures.table).
Proof. reflexivity. Qed.

Example analyze_resolved_table :
  analyze (ResolvedTable fixtures.table) = OK (ResolvedTable fixtures.table).
Proof. reflexivity. Qed.

Example analyze_project_i :
  analyze (Project [NewUnresolvedColumn "i"] (UnresolvedTable "mytable" ""))
  = OK (DecoratedNode "Projected table access on [i]"
          (ResolvedTable (memory.WithProjection fixtures.table ["i"]))).
Proof. reflexivity. Qed.

Example analyze_describe :
  analyze (Describe (UnresolvedTable "mytable" ""))
  = OK (Describe (ResolvedTable fixtures.table)).
Proof. reflexivity. Qed.

Example analyze_star :
  analyze (Project [NewStar] (UnresolvedTable "mytable" ""))
  = OK (DecoratedNode "Projected table access on [i t]"
          (ResolvedTable (memory.WithProjection fixtures.table ["i"; "t"]))).
Proof. reflexivity. Qed.

Example analyze_project_filter :
  analyze
    (Project [NewUnresolvedColumn "i"]
       (Filter (Equals (NewUnresolvedColumn "i") (Literal (VInt 1) Int32))
          (UnresolvedTable "mytable" "")))
  = OK (DecoratedNode "Filtered table access on [mytable.i = 1]"
          (DecoratedNode "Projected table access on [i]"
             (ResolvedTable
                (memory.WithProjection
                   (memory.WithFilters fixtures.table
                      [Equals (GetField 0 Int32 "mytable" "i" false)
                              (Literal (VInt 1) Int32)])
                   ["i"])))).
Proof. reflexivity. Qed.

Example analyze_limit :
  analyze (Limit 1 (Project [NewUnresolvedColumn "i"]
                      (UnresolvedTable "mytable" "")))
  = OK (Limit 1
          (DecoratedNode "Projected table access on [i]"
             (ResolvedTable (memory.WithProjection fixtures.table ["i"])))).
Proof. reflexivity. Qed.

(** TestAddRule and its two siblings: one rule more than the default. *)
Example TestAddRule :
  let fn : RuleFunc unit := pureRule (λ _, pushdown.pushdown) in
  countRules (Batches (Build (AddPostAnalyzeRule (NewBuilder ∅) "foo" fn)))
    = countRules (Batches (NewDefault (St:=unit) ∅)) + 1
  ∧ countRules (Batches (Build (AddPreValidationRule (NewBuilder ∅) "foo" fn)))
    = countRules (Batches (NewDefault (St:=unit) ∅)) + 1
  ∧ countRules (Batches (Build (AddPostValidationRule (NewBuilder ∅) "foo" fn)))
    = countRules (Batches (NewDefault (St:=unit) ∅)) + 1.
Proof. split_and!; reflexivity. Qed.

End analyzer_tests.

(** * Further properties *)

(** ** [expandStars] *)

Section expandStars_more.

Import analyzer.

Implicit Types (es ps : list Expression) (schema : Schema_t).

Lemma not_missing_app schema es1 es2 :
  (∀ e, e ∈ es1 → ¬ missingStar schema e) →
  (∀ e, e ∈ es2 → ¬ missingStar schema e) →
  ∀ e, e ∈ es1 ++ es2 → ¬ missingStar schema e.
Proof. intros H1 H2 e [?|?]%elem_of_app; auto. Qed.

(** X1.  [expandStars] goes through a list from left to right: the
    expansion of two lists put end to end is the expansion of the first
    followed by the expansion of the second, and it fails with the error
    of the first when that fails, else with the error of the second. *)
Theorem expandStars_app es1 es2 schema :
  expandStars (es1 ++ es2) schema
  = (r1 ← expandStars es1 schema; r2 ← expandStars es2 schema; OK (r1 ++ r2)).
Proof.
  destruct (first_missingStar schema es1)
    as [Hok1|(pre & t & post & -> & Hpre & Hmiss)].
  - rewrite (expandStars_OK schema es1 Hok1), bind_OK.
    destruct (first_missingStar schema es2)
      as [Hok2|(pre & t & post & -> & Hpre & Hmiss)].
    + rewrite (expandStars_OK schema es2 Hok2), bind_OK.
      rewrite expandStars_OK by by apply not_missing_app.
      by rewrite fmap_app, concat_app.
    + rewrite (expandStars_Err schema pre t post Hpre Hmiss), bind_Err.
      rewrite app_assoc. apply expandStars_Err; [|done].
      by apply not_missing_app.
  - rewrite (expandStars_Err schema pre t post Hpre Hmiss), bind_Err.
    rewrite <- app_assoc. simpl. by apply expandStars_Err.
Qed.

Lemma starColumns_empty table : starColumns table [] = [].
Proof. done. Qed.

Lemma expandOne_empty_schema es :
  concat (expandOne [] <$> es) = filter (λ e, isStar e = false) es.
Proof.
  induction es as [|e es IH]; [done|].
  change (expandOne [] e ++ concat (expandOne [] <$> es)
          = filter (λ e, isStar e = false) (e :: es)).
  rewrite IH, filter_cons. by destruct e.
Qed.

(** X2.  Over an empty schema a star without qualifier expands to nothing,
    without error, and a star with a qualifier fails: when every star of
    the list is unqualified the result is the list with its stars removed,
    and otherwise the error names the first star that has a qualifier. *)
Theorem expandStars_empty_schema es :
  ((∀ t, Star t ∈ es → t = "") →
     expandStars es [] = OK (filter (λ e, isStar e = false) es))
  ∧ (∀ pre t post,
       es = pre ++ Star t :: post → t ≠ "" →
       (∀ t', Star t' ∈ pre → t' = "") →
       expandStars es [] = Err (ErrTableNotFound t)).
Proof.
  assert (∀ l : list Expression, (∀ t, Star t ∈ l → t = "") →
            ∀ e, e ∈ l → ¬ missingStar [] e) as Hunq.
  { intros l Hl e He. destruct e; simpl; try tauto.
    intros [Hne _]. by apply Hne, Hl. }
  split.
  - intros Hall. rewrite expandStars_OK by by apply Hunq.
    by rewrite expandOne_empty_schema.
  - intros pre t post -> Hne Hpre. apply expandStars_Err; [by apply Hunq|].
    split; [done|]. intros col Hcol. by apply not_elem_of_nil in Hcol.
Qed.

Lemma expandStars_empty_schema_witness :
  expandStars [NewStar; GetField 0 Int32 "t" "i" false] []
  = OK [GetField 0 Int32 "t" "i" false].
Proof.
  refine (proj1 (expandStars_empty_schema
                   [NewStar; GetField 0 Int32 "t" "i" false]) _).
  intros t Ht. apply elem_of_cons in Ht as [[= ->]|Ht]; [reflexivity|].
  apply list_elem_of_singleton in Ht. discriminate Ht.
Defined.

(** X3.  [expandStars] leaves a list that has no star at its top as it is,
    whatever the schema, and never returns a list that has one: its result
    is returned unchanged by a further expansion against any schema. *)
Theorem expandStars_star_free es schema :
  ((∀ t, Star t ∉ es) → expandStars es schema = OK es)
  ∧ (∀ r, expandStars es schema = OK r →
       (∀ t, Star t ∉ r) ∧ ∀ schema', expandStars r schema' = OK r).
Proof.
  split.
  - intros Hno. rewrite expandStars_OK by by apply no_star_not_missing.
    by rewrite expandOne_no_star.
  - intros r Hr. split.
    + apply expandStars_OK_inv in Hr as [-> _]. intros t.
      apply expandOne_star_free.
    + intros schema'. by eapply expandStars_expanded.
Qed.

Lemma expandStars_star_free_witness :
  expandStars [Alias "x" NewStar] [] = OK [Alias "x" NewStar].
Proof.
  refine (proj1 (expandStars_star_free [Alias "x" NewStar] []) _).
  intros t Ht. apply list_elem_of_singleton in Ht. discriminate Ht.
Defined.

(** The inner loop over a schema in two parts: the second part is ranged
    with the index where the first ends and the slice the first built. *)
Lemma starFields_app table s1 : ∀ s2 i exprs,
  starFields table i (s1 ++ s2) exprs
  = starFields table (i + length s1) s2 (starFields table i s1 exprs).
Proof.
  induction s1 as [|col s1 IH]; intros s2 i exprs; simpl.
  - by rewrite Nat.add_0_r.
  - rewrite IH. f_equal. lia.
Qed.

Lemma shiftField_fmap_S i (l : list Expression) :
  shiftField i <$> (shiftField 1 <$> l) = shiftField (S i) <$> l.
Proof.
  induction l as [|e l IH]; [done|]. rewrite !fmap_cons, IH. f_equal.
  destruct e; simpl; try done. f_equal. lia.
Qed.

Lemma starFields_shift table schema : ∀ i exprs,
  starFields table i schema exprs
  = exprs ++ (shiftField i <$> starFields table 0 schema []).
Proof.
  induction schema as [|col rest IH]; intros i exprs; simpl.
  - by rewrite app_nil_r.
  - rewrite (IH (S i)), (IH 1).
    destruct (bool_decide (table = "") || bool_decide (table = Source col)).
    + rewrite <- app_assoc. f_equal.
      rewrite fmap_app, shiftField_fmap_S. simpl. by rewrite Nat.add_0_r.
    + f_equal. simpl. by rewrite shiftField_fmap_S.
Qed.

Lemma expandStars_single_Err table schema :
  expandStars [Star table] schema = Err (ErrTableNotFound table)
  ↔ missingStar schema (Star table).
Proof.
  split.
  - intros H. destruct (decide (missingStar schema (Star table))); [done|].
    rewrite expandStars_OK in H; [done|].
    intros e He. apply list_elem_of_singleton in He. by subst.
  - intros H. apply (expandStars_Err schema [] table []); [|done].
    intros e He. by apply not_elem_of_nil in He.
Qed.

(** X4.  A star over the schema of a join: the fields of the concatenation
    of two schemas are the fields of the left schema followed by the fields
    of the right schema, each moved right by the length of the left schema;
    and a qualified star fails over the concatenation exactly when it fails
    over both sides. *)
Theorem star_over_concatenated_schema table s1 s2 :
  starFields table 0 (s1 ++ s2) []
  = starFields table 0 s1 []
    ++ (shiftField (length s1) <$> starFields table 0 s2 [])
  ∧ (expandStars [Star table] (s1 ++ s2) = Err (ErrTableNotFound table)
     ↔ expandStars [Star table] s1 = Err (ErrTableNotFound table)
       ∧ expandStars [Star table] s2 = Err (ErrTableNotFound table)).
Proof.
  split.
  - by rewrite starFields_app, starFields_shift.
  - rewrite !expandStars_single_Err. simpl. split.
    + intros [Hne Hno]. split; (split; [done|]);
        intros col Hcol; apply Hno, elem_of_app; auto.
    + intros [[Hne H1] [_ H2]]. split; [done|].
      intros col [?|?]%elem_of_app; auto.
Qed.

End expandStars_more.

(** ** A pass of [resolveStar] over a tree *)

Section resolveStar_more.

Import analyzer.

Implicit Types (es ps : list Expression) (schema : Schema_t) (n c : Node).

Lemma bind_Err_inv {A B} (r : result A) (f : A → result B) (e : Error) :
  (r ≫= f) = Err e → r = Err e ∨ ∃ a, r = OK a ∧ f a = Err e.
Proof. destruct r as [a|e']; simpl; [eauto|]. intros [= ->]. by left. Qed.

Lemma elem_of_starTables es t : t ∈ starTables es ↔ Star t ∈ es.
Proof.
  unfold starTables. rewrite list_elem_of_omap. split.
  - intros (e & He & Ht). destruct e; simplify_eq. done.
  - intros H. exists (Star t). done.
Qed.

Lemma expandStars_Err_inv es schema e :
  expandStars es schema = Err e →
  ∃ t, e = ErrTableNotFound t ∧ t ≠ "" ∧ t ∈ starTables es.
Proof.
  intros H.
  destruct (first_missingStar schema es)
    as [Hok|(pre & t & post & -> & Hpre & Hmiss)].
  - by rewrite expandStars_OK in H.
  - rewrite (expandStars_Err schema pre t post Hpre Hmiss) in H.
    injection H as <-. exists t. destruct Hmiss as [Hne _].
    split_and!; [done..|]. apply elem_of_starTables, elem_of_app.
    right. left.
Qed.

(** The node function fails only through [expandStars]. *)
Lemma resolveStarNode_Err n e :
  resolveStarNode n = Err e →
  ∃ t, e = ErrTableNotFound t ∧ t ≠ "" ∧
       match n with
       | Project ps _ | GroupBy ps _ _ => t ∈ starTables ps
       | _ => False
       end.
Proof.
  destruct (isProjectOrGroupBy n) eqn:Hkind;
    [|by rewrite resolveStarNode_other].
  destruct n; try done.
  - destruct (plan.Resolved n) eqn:Hc.
    + rewrite resolveStarNode_Project by done.
      intros [He|(a & _ & ?)]%bind_Err_inv; [|done].
      by apply expandStars_Err_inv in He.
    + by rewrite resolveStarNode_unresolved_child.
  - destruct (plan.Resolved n) eqn:Hc.
    + rewrite resolveStarNode_GroupBy by done.
      intros [He|(a & _ & ?)]%bind_Err_inv; [|done].
      by apply expandStars_Err_inv in He.
    + by rewrite resolveStarNode_unresolved_child.
Qed.

Ltac pass_cases H :=
  unfold resolveStar in H; cbn [plan.TransformUp] in H;
  repeat match type of H with
         | (plan.TransformUp resolveStarNode ?c ≫= _) = _ =>
             let c' := fresh "c'" in
             let Hc := fresh "Hc" in
             destruct (plan.TransformUp resolveStarNode c) as [c'|?] eqn:Hc;
             [rewrite bind_OK in H|rewrite bind_Err in H]
         end.

Lemma resolveStar_Err n : ∀ e,
  resolveStar n = Err e →
  ∃ t, e = ErrTableNotFound t ∧ t ≠ "" ∧ t ∈ starQualifiers n.
Proof.
  induction n; intros err H; pass_cases H;
    repeat match goal with
           | H : Err _ = Err _ |- _ => injection H as ->
           end;
    try match goal with
        | IH : ∀ e, resolveStar ?c = Err e → _,
          Hc : plan.TransformUp _ ?c = Err ?e |- _ =>
            destruct (IH e Hc) as (q & -> & Hne & Hin);
            exists q; split_and!; [done..|];
            simpl; rewrite ?elem_of_app; by auto
        end;
    apply resolveStarNode_Err in H as (q & -> & Hne & Hin);
    try done; exists q; split_and!; try done;
    simpl; rewrite ?elem_of_app; auto.
Qed.

(** X5.  A pass of [resolveStar] fails in one way only: with
    [ErrTableNotFound] of a qualifier that is not empty and that a star at
    the top of the list of some [Project] or [GroupBy] of the tree
    carries. *)
Theorem resolveStar_fails_only_with_TableNotFound n e :
  resolveStar n = Err e →
  ∃ t, e = ErrTableNotFound t ∧ t ≠ "" ∧ t ∈ starQualifiers n.
Proof. apply resolveStar_Err. Qed.

Lemma resolveStar_fails_only_with_TableNotFound_witness :
  ∃ t, ErrTableNotFound "nope" = ErrTableNotFound t ∧ t ≠ ""
       ∧ t ∈ starQualifiers
               (Filter NewStar
                  (Project [NewQualifiedStar "nope"]
                     (ResolvedTable fixtures.table))).
Proof.
  refine (resolveStar_fails_only_with_TableNotFound
            (Filter NewStar
               (Project [NewQualifiedStar "nope"] (ResolvedTable fixtures.table)))
            (ErrTableNotFound "nope") _).
  reflexivity.
Defined.

(** X6.  A pass of [resolveStar] does not fail on a tree in which no
    [Project] or [GroupBy] has a qualified star at the top of its list,
    whatever the schemas. *)
Theorem resolveStar_unqualified_total n :
  (∀ t, t ∈ starQualifiers n → t = "") →
  ∃ n', resolveStar n = OK n'.
Proof.
  intros Hunq. destruct (resolveStar n) as [n'|e] eqn:H; [eauto|].
  apply resolveStar_Err in H as (t & _ & Hne & Hin).
  exfalso. by apply Hne, Hunq.
Qed.

Lemma resolveStar_unqualified_total_witness :
  ∃ n', resolveStar (Project [NewStar] (UnresolvedTable "missing" "")) = OK n'.
Proof.
  refine (resolveStar_unqualified_total
            (Project [NewStar] (UnresolvedTable "missing" "")) _).
  intros t Ht. simpl in Ht. apply list_elem_of_singleton in Ht. exact Ht.
Defined.

Ltac pass_OK H :=
  unfold resolveStar in H; cbn [plan.TransformUp] in H;
  repeat match type of H with
         | (plan.TransformUp resolveStarNode ?c ≫= _) = OK _ =>
             let c' := fresh "c'" in
             let Hc := fresh "Hc" in
             apply bind_OK_inv in H as (c' & Hc & H)
         end.

Lemma resolveStarNode_skeleton n n' :
  resolveStarNode n = OK n' → skeleton n' = skeleton n.
Proof.
  destruct (isProjectOrGroupBy n) eqn:Hkind;
    [|rewrite resolveStarNode_other by done; by intros [= <-]].
  destruct n; try done.
  - destruct (plan.Resolved n) eqn:Hc.
    + rewrite resolveStarNode_Project by done.
      by intros (es & _ & [= <-])%bind_OK_inv.
    + rewrite resolveStarNode_unresolved_child by done. by intros [= <-].
  - destruct (plan.Resolved n) eqn:Hc.
    + rewrite resolveStarNode_GroupBy by done.
      by intros (es & _ & [= <-])%bind_OK_inv.
    + rewrite resolveStarNode_unresolved_child by done. by intros [= <-].
Qed.

(** X7.  A pass of [resolveStar] keeps the tree as it is apart from the
    projections of [Project] nodes and the aggregates of [GroupBy] nodes:
    no node is added, removed or changed in kind, no table, filter
    condition, join condition, grouping list, limit, alias or description
    is touched. *)
Theorem resolveStar_keeps_skeleton n : ∀ n',
  resolveStar n = OK n' → skeleton n' = skeleton n.
Proof.
  induction n; intros n' H; pass_OK H;
    repeat match goal with
           | IH : ∀ n', resolveStar ?c = OK n' → _,
             Hc : plan.TransformUp _ ?c = OK _ |- _ =>
               apply IH in Hc; clear IH
           end;
    apply resolveStarNode_skeleton in H; rewrite H; simpl; congruence.
Qed.

Lemma resolveStar_keeps_skeleton_witness :
  skeleton (Project [GetField 0 Int32 "mytable" "i" false;
                     GetField 1 Text "mytable" "t" false]
              (ResolvedTable fixtures.table))
  = skeleton (Project [NewStar] (ResolvedTable fixtures.table)).
Proof.
  refine (resolveStar_keeps_skeleton
            (Project [NewStar] (ResolvedTable fixtures.table)) _ _).
  reflexivity.
Defined.

Lemma forallb_not_isStar es :
  (∀ t, Star t ∉ es) → forallb (negb ∘ isStar) es = true.
Proof.
  intros Hno. apply forallb_forall. intros e He%list_elem_of_In.
  destruct e; try done. by apply Hno in He.
Qed.

Lemma resolveStarNode_StarsExpanded n n' :
  (∀ c, c ∈ plan.Children n → StarsExpanded c = true) →
  resolveStarNode n = OK n' → StarsExpanded n' = true.
Proof.
  intros Hc.
  destruct (isProjectOrGroupBy n) eqn:Hkind.
  - destruct n; try done;
      (assert (StarsExpanded n = true) as Hn by (apply Hc; simpl; left));
      destruct (plan.Resolved n) eqn:Hres.
    + rewrite resolveStarNode_Project by done.
      intros (es & Hes & [= <-])%bind_OK_inv. simpl.
      rewrite Hres, Hn. simpl. rewrite andb_true_r.
      apply expandStars_OK_inv in Hes as [-> _].
      apply forallb_not_isStar. intros t. apply expandOne_star_free.
    + rewrite resolveStarNode_unresolved_child by done. intros [= <-].
      simpl. by rewrite Hres, Hn.
    + rewrite resolveStarNode_GroupBy by done.
      intros (es & Hes & [= <-])%bind_OK_inv. simpl.
      rewrite Hres, Hn. simpl. rewrite andb_true_r.
      apply expandStars_OK_inv in Hes as [-> _].
      apply forallb_not_isStar. intros t. apply expandOne_star_free.
    + rewrite resolveStarNode_unresolved_child by done. intros [= <-].
      simpl. by rewrite Hres, Hn.
  - rewrite resolveStarNode_other by done. intros [= <-].
    destruct n; try done; simpl in *;
      rewrite ?Hc by (repeat constructor); done.
Qed.

(** X8.  After a pass of [resolveStar] that succeeds, no [Project] or
    [GroupBy] of the tree that stands over a resolved child has a star left
    at the top of its list: the stars that remain are above children that
    are still unresolved, or nested inside other expressions. *)
Theorem resolveStar_expands_all_reachable_stars n : ∀ n',
  resolveStar n = OK n' → StarsExpanded n' = true.
Proof.
  induction n; intros n' H; pass_OK H;
    repeat match goal with
           | IH : ∀ n', resolveStar ?c = OK n' → _,
             Hc : plan.TransformUp _ ?c = OK _ |- _ =>
               apply IH in Hc; clear IH
           end;
    (eapply resolveStarNode_StarsExpanded; [|exact H]);
    simpl; intros c Hin;
    repeat (apply elem_of_cons in Hin as [->|Hin]; [done|]);
    by apply not_elem_of_nil in Hin.
Qed.

Lemma resolveStar_expands_all_reachable_stars_witness :
  StarsExpanded
    (Project [GetField 0 Int32 "mytable" "i" false;
              GetField 1 Text "mytable" "t" false]
       (Project [GetField 0 Int32 "mytable" "i" false;
                 GetField 1 Text "mytable" "t" false]
          (ResolvedTable fixtures.table)))
  = true.
Proof.
  refine (resolveStar_expands_all_reachable_stars
            (Project [NewStar]
               (Project [NewStar] (ResolvedTable fixtures.table))) _ _).
  reflexivity.
Defined.

Lemma starColumns_fieldsMatch table schema :
  forallb (fieldsMatch schema) (starColumns table schema) = true.
Proof.
  apply forallb_forall. intros e He%list_elem_of_In.
  apply elem_of_starColumns in He as (i & col & Hcol & _ & ->).
  simpl. apply bool_decide_eq_true. by destruct col.
Qed.

Lemma expandOne_fieldsMatch schema es :
  forallb (fieldsMatch schema) es = true →
  forallb (fieldsMatch schema) (concat (expandOne schema <$> es)) = true.
Proof.
  induction es as [|e es IH]; [done|].
  intros [He Hes]%andb_true_iff.
  change (forallb (fieldsMatch schema)
            (expandOne schema e ++ concat (expandOne schema <$> es)) = true).
  rewrite forallb_app, IH, andb_true_r by done.
  destruct e; simpl in *; rewrite ?He; try done.
  apply starColumns_fieldsMatch.
Qed.

(** The expressions of a node stay in place over the child as a pass
    returns it: the pass returns a resolved child as it is, and over an
    unresolved child the node holds no field reference. *)
Lemma exprs_in_place c c' es :
  resolveStar c = OK c' →
  plan.Resolved c || forallb noFields es = true →
  forallb (fieldsMatch (plan.Schema c)) es = true →
  forallb (fieldsMatch (plan.Schema c')) es = true
  ∧ plan.Resolved c' || forallb noFields es = true.
Proof.
  intros Hpass Hg Hw. destruct (plan.Resolved c) eqn:Hres.
  - rewrite (resolveStar_resolved c Hres) in Hpass. injection Hpass as <-.
    by rewrite Hres.
  - simpl in Hg. rewrite Hg, orb_true_r.
    split; [|done]. by apply noFields_forallb_fieldsMatch.
Qed.

Lemma expr_in_place c c' e :
  resolveStar c = OK c' →
  plan.Resolved c || noFields e = true →
  fieldsMatch (plan.Schema c) e = true →
  fieldsMatch (plan.Schema c') e = true
  ∧ plan.Resolved c' || noFields e = true.
Proof.
  intros Hpass Hg Hw.
  destruct (exprs_in_place c c' [e] Hpass) as [H1 H2].
  - simpl. by rewrite andb_true_r.
  - simpl. by rewrite andb_true_r.
  - simpl in H1, H2. by rewrite andb_true_r in H1, H2.
Qed.

Lemma join_expr_in_place l l' r r' e :
  resolveStar l = OK l' → resolveStar r = OK r' →
  plan.Resolved l && plan.Resolved r || noFields e = true →
  fieldsMatch (plan.Schema l ++ plan.Schema r) e = true →
  fieldsMatch (plan.Schema l' ++ plan.Schema r') e = true
  ∧ plan.Resolved l' && plan.Resolved r' || noFields e = true.
Proof.
  intros Hl Hr Hg Hw. destruct (plan.Resolved l && plan.Resolved r) eqn:Hres.
  - apply andb_true_iff in Hres as [Hrl Hrr].
    rewrite (resolveStar_resolved l Hrl) in Hl. injection Hl as <-.
    rewrite (resolveStar_resolved r Hrr) in Hr. injection Hr as <-.
    by rewrite Hrl, Hrr.
  - simpl in Hg. rewrite Hg, orb_true_r.
    split; [|done]. by apply noFields_fieldsMatch.
Qed.

Lemma resolveStar_in_place n : ∀ n',
  Guarded n = true → WellIndexed n = true →
  resolveStar n = OK n' →
  Guarded n' = true ∧ WellIndexed n' = true.
Proof.
  induction n; intros n' HG HW H; simpl in HG, HW;
    repeat match goal with
           | H : _ && _ = true |- _ => apply andb_true_iff in H as [? ?]
           end;
    pass_OK H;
    repeat match goal with
           | IH : ∀ n', Guarded ?c = true → WellIndexed ?c = true → _,
             H1 : Guarded ?c = true, H2 : WellIndexed ?c = true,
             Hc : plan.TransformUp _ ?c = OK ?c' |- _ =>
               let HG' := fresh "HG'" in
               let HW' := fresh "HW'" in
               destruct (IH c' H1 H2 Hc) as [HG' HW']; clear IH
           end.
  - rewrite resolveStarNode_other in H by done. by injection H as <-.
  - rewrite resolveStarNode_other in H by done. by injection H as <-.
  - (* Project *)
    destruct (exprs_in_place n c' projections) as [Hm Hg]; [done..|].
    destruct (plan.Resolved c') eqn:Hres.
    + rewrite resolveStarNode_Project in H by done.
      apply bind_OK_inv in H as (es & Hes & [= <-]).
      apply expandStars_OK_inv in Hes as [-> _]. simpl.
      by rewrite Hres, HG', HW', expandOne_fieldsMatch.
    + rewrite resolveStarNode_unresolved_child in H by done.
      injection H as <-. simpl in *. by rewrite Hres, Hg, Hm, HG', HW'.
  - (* Filter *)
    rewrite resolveStarNode_other in H by done. injection H as <-.
    destruct (expr_in_place n c' cond) as [Hm Hg]; [done..|].
    simpl. by rewrite Hg, Hm, HG', HW'.
  - (* GroupBy *)
    match goal with
    | Hor : plan.Resolved n || _ = true |- _ =>
        assert (plan.Resolved n || forallb noFields (aggregate ++ grouping)
                = true) as Hgs
          by (rewrite forallb_app; exact Hor)
    end.
    destruct (exprs_in_place n c' (aggregate ++ grouping)) as [Hm Hg];
      [done|done|by rewrite forallb_app, andb_true_iff|].
    rewrite forallb_app in Hm, Hg. apply andb_true_iff in Hm as [Hma Hmg].
    destruct (plan.Resolved c') eqn:Hres.
    + rewrite resolveStarNode_GroupBy in H by done.
      apply bind_OK_inv in H as (es & Hes & [= <-]).
      apply expandStars_OK_inv in Hes as [-> _]. simpl.
      by rewrite Hres, HG', HW', expandOne_fieldsMatch, Hmg.
    + rewrite resolveStarNode_unresolved_child in H by done.
      injection H as <-. simpl. simpl in Hg.
      by rewrite Hres, Hg, Hma, Hmg, HG', HW'.
  - (* Limit *)
    rewrite resolveStarNode_other in H by done. by injection H as <-.
  - (* InnerJoin *)
    rewrite resolveStarNode_other in H by done. injection H as <-.
    destruct (join_expr_in_place n1 c' n2 c'0 cond) as [Hm Hg]; [done..|].
    simpl. by rewrite Hg, Hm, HG', HW', HG'0, HW'0.
  - (* CrossJoin *)
    rewrite resolveStarNode_other in H by done. injection H as <-.
    simpl. by rewrite HG', HW', HG'0, HW'0.
  - (* NaturalJoin *)
    rewrite resolveStarNode_other in H by done. injection H as <-.
    simpl. by rewrite HG', HW', HG'0, HW'0.
  - rewrite resolveStarNode_other in H by done. by injection H as <-.
  - rewrite resolveStarNode_other in H by done. by injection H as <-.
  - rewrite resolveStarNode_other in H by done. by injection H as <-.
Qed.

(** X9.  A pass of [resolveStar] keeps field references in place.  In a
    tree where every [GetField] points at the column it records in the
    schema its node reads, and where field references sit above resolved
    children only, the same holds after the pass: the fields the pass
    generates point at the columns they are made from, and the fields that
    were there still point at theirs. *)
Theorem resolveStar_keeps_fields_in_place n n' :
  Guarded n = true → WellIndexed n = true →
  resolveStar n = OK n' →
  Guarded n' = true ∧ WellIndexed n' = true.
Proof. apply resolveStar_in_place. Qed.

Lemma resolveStar_keeps_fields_in_place_witness :
  Guarded
    (Project [GetField 0 Int32 "mytable" "i" false;
              GetField 1 Text "mytable" "t" false]
       (Filter (Equals (GetField 0 Int32 "mytable" "i" false)
                       (Literal (VInt 1) Int32))
          (ResolvedTable fixtures.table))) = true
  ∧ WellIndexed
      (Project [GetField 0 Int32 "mytable" "i" false;
                GetField 1 Text "mytable" "t" false]
         (Filter (Equals (GetField 0 Int32 "mytable" "i" false)
                         (Literal (VInt 1) Int32))
            (ResolvedTable fixtures.table))) = true.
Proof.
  refine (resolveStar_keeps_fields_in_place
            (Project [NewStar]
               (Filter (Equals (GetField 0 Int32 "mytable" "i" false)
                               (Literal (VInt 1) Int32))
                  (ResolvedTable fixtures.table))) _ _ _ _); reflexivity.
Defined.

End resolveStar_more.

(** ** The [user] grant table *)

Section grant_tables_more.

Import grant_tables.

(** What the loop of [init] leaves under a name: the position of the last
    column of that name, counted from [i], or what the map held. *)
Lemma buildColIdxMap_lookup (schema : list GrantColumn) :
  ∀ (i : nat) (m : gmap string nat) (name : string) (j : nat),
    buildColIdxMap i schema m !! name = Some j ↔
      (∃ k, j = i + k ∧ (gc_Name <$> schema) !! k = Some name
            ∧ ∀ k', k < k' → (gc_Name <$> schema) !! k' ≠ Some name)
      ∨ ((name ∉ gc_Name <$> schema) ∧ m !! name = Some j).
Proof.
  induction schema as [|col rest IH]; intros i m name j.
  - simpl. split.
    + intros Hm. right. split; [apply not_elem_of_nil | exact Hm].
    + intros [(k & _ & Hk & _) | [_ Hm]]; [discriminate | exact Hm].
  - cbn [buildColIdxMap]. rewrite IH. rewrite fmap_cons. split.
    + intros [(k & -> & Hk & Hlast) | [Hnot Hm]].
      * left. exists (S k). split; [lia|]. split; [exact Hk|].
        intros [|k'] Hlt; [lia|]. simpl. apply Hlast. lia.
      * destruct (decide (gc_Name col = name)) as [<- | Hne].
        -- rewrite lookup_insert_eq in Hm. injection Hm as <-.
           left. exists 0. split; [lia|]. split; [reflexivity|].
           intros [|k'] Hlt; [lia|]. simpl. intros Hk.
           apply Hnot. eapply list_elem_of_lookup_2, Hk.
        -- rewrite lookup_insert_ne in Hm by exact Hne.
           right. split; [|exact Hm].
           apply not_elem_of_cons. split; [congruence | exact Hnot].
    + intros [(k & -> & Hk & Hlast) | [Hnot Hm]].
      * destruct k as [|k].
        -- simpl in Hk. injection Hk as <-. right. split.
           ++ intros Hin. apply list_elem_of_lookup in Hin as [k' Hk'].
              apply (Hlast (S k')); [lia | exact Hk'].
           ++ rewrite lookup_insert_eq. f_equal. lia.
        -- left. exists k. split; [lia|]. split; [exact Hk|].
           intros k' Hlt. apply (Hlast (S k')). lia.
      * apply not_elem_of_cons in Hnot as [Hne Hnot].
        right. split; [exact Hnot|].
        rewrite lookup_insert_ne by congruence. exact Hm.
Qed.

Lemma buildColIdxMap_last (schema : list GrantColumn) (name : string)
    (i : nat) :
  buildColIdxMap 0 schema ∅ !! name = Some i ↔
    (gc_Name <$> schema) !! i = Some name
    ∧ ∀ j, i < j → (gc_Name <$> schema) !! j ≠ Some name.
Proof.
  rewrite buildColIdxMap_lookup. split.
  - intros [(k & -> & Hk & Hlast) | [_ Hm]].
    + split; [exact Hk | exact Hlast].
    + rewrite lookup_empty in Hm. discriminate.
  - intros [Hi Hlast]. left. exists i. split; [lia|]. split; assumption.
Qed.

Lemma userTblSchema_names_NoDup : NoDup (gc_Name <$> userTblSchema).
Proof. apply (bool_decide_unpack _). vm_compute. reflexivity. Qed.

(** X10. The loop of [init] maps a column name to the position of the last
    column of the schema that has this name, and maps no other name; the
    51 names of the [user] table are distinct, so that after [init] the
    index map is the inverse of the positions of the schema. *)
Theorem colIdxMap_inverts_positions :
  (∀ (schema : list GrantColumn) (name : string) (i : nat),
     buildColIdxMap 0 schema ∅ !! name = Some i ↔
       (gc_Name <$> schema) !! i = Some name
       ∧ ∀ j, i < j → (gc_Name <$> schema) !! j ≠ Some name)
  ∧ (∀ (name : string) (i : nat),
       g_userTblColIdxMap (init declared) !! name = Some i ↔
         (gc_Name <$> g_userTblSchema (init declared)) !! i = Some name).
Proof.
  split; [apply buildColIdxMap_last|].
  intros name i. cbn [init declared g_userTblColIdxMap g_userTblSchema].
  rewrite buildColIdxMap_last. split; [tauto|].
  intros Hi. split; [exact Hi|].
  intros j Hlt Hj.
  pose proof (NoDup_lookup _ _ _ _ userTblSchema_names_NoDup Hi Hj). lia.
Qed.

(** The index read for a name is a position of the schema, when there is
    one. *)
Lemma mapIndex_lt (schema : list GrantColumn) (name : string) :
  schema ≠ [] →
  mapIndex (buildColIdxMap 0 schema ∅) name < length schema.
Proof.
  intros Hne. unfold mapIndex.
  destruct (buildColIdxMap 0 schema ∅ !! name) as [i|] eqn:Hi; simpl.
  - apply buildColIdxMap_last in Hi as [Hi _].
    apply lookup_lt_Some in Hi. by rewrite length_fmap in Hi.
  - destruct schema; [done | simpl; lia].
Qed.

Lemma row_lookup_in_range (schema : list GrantColumn) (row : list Value)
    (name : string) :
  schema ≠ [] → length row = length schema →
  is_Some (row !! mapIndex (buildColIdxMap 0 schema ∅) name).
Proof.
  intros Hne Hlen. apply lookup_lt_is_Some. rewrite Hlen.
  by apply mapIndex_lt.
Qed.

(** X11. With the index map built by the loop of [init], the two
    [KeyFromRow] never index the row out of range exactly when the schema
    has a column: the length check protects every row then, and over an
    empty schema the empty row passes the check and the first index
    panics. *)
Theorem KeyFromRow_in_range_iff_schema_nonempty
    (schema : list GrantColumn) :
  let g := mkGlobals schema (buildColIdxMap 0 schema ∅) in
  ((∀ u row, UserPrimaryKey_KeyFromRow g u row ≠ Panicked) ↔ schema ≠ [])
  ∧ ((∀ u row, UserSecondaryKey_KeyFromRow g u row ≠ Panicked)
     ↔ schema ≠ []).
Proof.
  cbv zeta. split; split.
  - intros Hsafe ->.
    by apply (Hsafe (mkUserPrimaryKey "" "") []).
  - intros Hne u row. unfold UserPrimaryKey_KeyFromRow.
    cbn [g_userTblSchema g_userTblColIdxMap].
    case_bool_decide as Hlen; simpl; [|done].
    destruct (row_lookup_in_range schema row "Host" Hne Hlen) as [v ->].
    destruct (row_lookup_in_range schema row "User" Hne Hlen) as [w ->].
    by destruct v, w.
  - intros Hsafe ->.
    by apply (Hsafe (mkUserSecondaryKey "") []).
  - intros Hne u row. unfold UserSecondaryKey_KeyFromRow.
    cbn [g_userTblSchema g_userTblColIdxMap].
    case_bool_decide as Hlen; simpl; [|done].
    destruct (row_lookup_in_range schema row "User" Hne Hlen) as [w ->].
    by destruct w.
Qed.

Lemma init_indices :
  length (g_userTblSchema (init declared)) = 51
  ∧ mapIndex (g_userTblColIdxMap (init declared)) "Host" = 0
  ∧ mapIndex (g_userTblColIdxMap (init declared)) "User" = 1.
Proof. split_and!; vm_compute; reflexivity. Qed.

(** X12. After [init], [UserPrimaryKey.KeyFromRow] returns a key without
    error exactly for the rows of 51 cells whose cells 0 and 1 are strings,
    and the key is made of them, host first; for every other row it returns
    its receiver with [errUserPkRow]. *)
Theorem UserPrimaryKey_KeyFromRow_after_init (u : UserPrimaryKey)
    (row : list Value) :
  (∀ k, UserPrimaryKey_KeyFromRow (init declared) u row = Returned (k, None)
        ↔ length row = 51
          ∧ row !! 0 = Some (VText (pk_Host k))
          ∧ row !! 1 = Some (VText (pk_User k)))
  ∧ ((∃ k, UserPrimaryKey_KeyFromRow (init declared) u row
           = Returned (k, None))
     ∨ UserPrimaryKey_KeyFromRow (init declared) u row
       = Returned (u, Some errUserPkRow)).
Proof.
  destruct init_indices as (Hlen & HHost & HUser).
  unfold UserPrimaryKey_KeyFromRow. rewrite Hlen, HHost, HUser.
  case_bool_decide as Hrow; simpl.
  - assert (is_Some (row !! 0)) as [v Hv]
      by (apply lookup_lt_is_Some; lia).
    assert (is_Some (row !! 1)) as [w Hw]
      by (apply lookup_lt_is_Some; lia).
    rewrite Hv, Hw. split.
    + intros [h us]. simpl.
      destruct v, w; split; try (intros H; discriminate H);
        try (intros (_ & H1 & H2); discriminate H1 || discriminate H2).
      * intros H. injection H as -> ->. done.
      * intros (_ & H1 & H2). injection H1 as ->. injection H2 as ->. done.
    + destruct v, w; eauto.
  - split; [|by right].
    intros k. split; [discriminate | intros [? _]; done].
Qed.

(** X13. A row that has a primary key has a secondary key, whatever the
    two package variables hold, and an entry that has a primary key has a
    secondary key: in both cases it is the [User] of the primary key.  On
    an entry the two keys moreover fail together: both panic on a [nil]
    user, and both return a [nil] key with their own error on an entry of
    another type. *)
Theorem secondary_key_follows_primary_key (g : Globals)
    (u : UserPrimaryKey) (us : UserSecondaryKey) (k : UserPrimaryKey) :
  (∀ row, UserPrimaryKey_KeyFromRow g u row = Returned (k, None) →
          UserSecondaryKey_KeyFromRow g us row
          = Returned (mkUserSecondaryKey (pk_User k), None))
  ∧ (∀ entry, UserPrimaryKey_KeyFromEntry u entry = Returned (Some k, None) →
              UserSecondaryKey_KeyFromEntry us entry
              = Returned (Some (mkUserSecondaryKey (pk_User k)), None))
  ∧ (∀ entry,
       (UserPrimaryKey_KeyFromEntry u entry = Panicked
        ↔ UserSecondaryKey_KeyFromEntry us entry = Panicked)
       ∧ (UserPrimaryKey_KeyFromEntry u entry
          = Returned (None, Some errUserPkEntry)
          ↔ UserSecondaryKey_KeyFromEntry us entry
            = Returned (None, Some errUserSkEntry))).
Proof.
  split_and!.
  - intros row. unfold UserPrimaryKey_KeyFromRow, UserSecondaryKey_KeyFromRow.
    destruct (negb _); [discriminate|].
    destruct (row !! mapIndex _ "Host") as [[| | |host]|];
      try discriminate.
    destruct (row !! mapIndex _ "User") as [[| | |user]|];
      try discriminate.
    intros H. injection H as <-. reflexivity.
  - intros [user| |]; simpl; try discriminate.
    intros H. injection H as <-. reflexivity.
  - intros [user| |]; simpl; split; split; done.
Qed.

Lemma secondary_key_follows_primary_key_witness :
  UserSecondaryKey_KeyFromRow (init declared) (mkUserSecondaryKey "")
    (VText "localhost" :: VText "root" :: replicate 49 VNull)
  = Returned (mkUserSecondaryKey "root", None).
Proof.
  refine (proj1 (secondary_key_follows_primary_key (init declared)
                   (mkUserPrimaryKey "" "") (mkUserSecondaryKey "")
                   (mkUserPrimaryKey "localhost" "root")) _ _).
  vm_compute. reflexivity.
Defined.


End grant_tables_more.

(** ** The helpers of analyzer_test.go *)

Section analyzer_test_more.

Import engine builder test_fixtures.

Lemma countRulesLoop_acc {St : Type} (batches : list (Batch St)) :
  ∀ count, countRulesLoop batches count = count + countRulesLoop batches 0.
Proof.
  induction batches as [|b rest IH]; intros count; simpl; [lia|].
  rewrite (IH (count + _)), (IH (length _)). lia.
Qed.

Lemma countRules_cons {St : Type} (b : Batch St) (rest : list (Batch St)) :
  countRules (b :: rest) = length (Rules b) + countRules rest.
Proof. unfold countRules. simpl. apply countRulesLoop_acc. Qed.

Lemma countRules_app_eq {St : Type} (bs1 bs2 : list (Batch St)) :
  countRules (bs1 ++ bs2) = countRules bs1 + countRules bs2.
Proof.
  induction bs1 as [|b bs1 IH]; [reflexivity|].
  rewrite <- app_comm_cons, !countRules_cons, IH. lia.
Qed.

(** X15. [countRules] counts every rule of every batch once: it is the
    length of the batches' rule lists put end to end, it adds up over two
    lists of batches, and one more rule at the end of any one batch makes
    it one more, wherever the batch stands. *)
Theorem countRules_counts_each_rule {St : Type} :
  (∀ batches : list (Batch St),
     countRules batches = length (concat (Rules <$> batches)))
  ∧ (∀ bs1 bs2 : list (Batch St),
       countRules (bs1 ++ bs2) = countRules bs1 + countRules bs2)
  ∧ (∀ (bs1 bs2 : list (Batch St)) (b : Batch St) (r : Rule St),
       countRules
         (bs1 ++ mkBatch (Desc b) (Iterations b) (Rules b ++ [r]) :: bs2)
       = countRules (bs1 ++ b :: bs2) + 1).
Proof.
  split_and!.
  - induction batches as [|b rest IH]; [reflexivity|].
    rewrite countRules_cons, IH, fmap_cons. simpl.
    by rewrite length_app.
  - apply countRules_app_eq.
  - intros bs1 bs2 b r.
    rewrite !countRules_app_eq, !countRules_cons. simpl.
    rewrite length_app. simpl. lia.
Qed.

Lemma loopRuleTimes_table (k : nat) : ∀ (c : Context) (t : Table) (count : nat),
  loopRuleTimes (S k) c (ResolvedTable t) count
  = (OK (ResolvedTable (loopTable ("mytable-" +:+ pretty (count + S k)))),
     count + S k).
Proof.
  induction k as [|k IH]; intros c t count.
  - simpl. by replace (count + 1) with (S count) by lia.
  - change (loopRuleTimes (S (S k)) c (ResolvedTable t) count)
      with (loopRuleTimes (S k) c
              (ResolvedTable (loopTable ("mytable-" +:+ pretty (S count))))
              (S count)).
    rewrite IH. by replace (S count + S k) with (count + S (S k)) by lia.
Qed.

Lemma loopTable_name_inj (a b : nat) :
  loopTable ("mytable-" +:+ pretty a) = loopTable ("mytable-" +:+ pretty b) →
  a = b.
Proof.
  intros H. apply (f_equal table_name) in H.
  cbn [loopTable memory.NewTable table_name] in H.
  apply pretty_nat_inj. by apply (String.app_inj "mytable-").
Qed.

(** X16. The rule of [TestMaxIterations], called [k+1] times in a row from
    a resolved table, leaves the table named after the counter and the
    counter raised by [k+1]; no two calls in a row give the same tree, so
    that the rule never reaches a fixed point; and a node that is not a
    resolved table is returned as it is, with the counter untouched. *)
Theorem loopRule_never_settles (c : Context) (count : nat) :
  (∀ (k : nat) (t : Table),
     loopRuleTimes (S k) c (ResolvedTable t) count
     = (OK (ResolvedTable (loopTable ("mytable-" +:+ pretty (count + S k)))),
        count + S k))
  ∧ (∀ (k : nat) (t : Table),
       (loopRuleTimes (S (S k)) c (ResolvedTable t) count).1
       ≠ (loopRuleTimes (S k) c (ResolvedTable t) count).1)
  ∧ (∀ (k : nat) (n : Node),
       (∀ t, n ≠ ResolvedTable t) →
       loopRuleTimes k c n count = (OK n, count)).
Proof.
  split_and!.
  - intros k t. apply loopRuleTimes_table.
  - intros k t. rewrite !loopRuleTimes_table. cbn [fst]. intros H.
    assert (loopTable ("mytable-" +:+ pretty (count + S (S k)))
            = loopTable ("mytable-" +:+ pretty (count + S k))) as Ht
      by congruence.
    apply loopTable_name_inj in Ht. lia.
  - intros k n Hn. induction k as [|k IH]; [reflexivity|].
    cbn [loopRuleTimes].
    destruct n; try exact IH. by destruct (Hn t).
Qed.

End analyzer_test_more.
